(** * Mosca: the session registry, keepalive timers and shutdown of
      [lib/server.js], embedded as an event-loop state machine.

    The JavaScript of [lib/server.js] is translated function by function.
    Closures are defunctionalised (a callback is a constructor naming the
    closure and holding what it captured), client objects live in a store
    and are passed by reference, and the collaborators the file only calls
    (the codec, the net listener, Node's timers and tick queue, the
    [async] join, the Ascoltatori bus) are modelled at their interface. *)

From stdpp Require Import gmap strings list fin_maps sorting.
From Stdlib Require Import ZArith Lia.

Set Default Proof Using "Type".

(** ** Values handed across the interfaces *)

(** A client object as [serve] and [closeConn] see it: the two fields set
    by the connect handler, the timer handle kept by [setUpTimer], and the
    two facts about the connection that [closeConn] changes. [None] is
    JavaScript's [undefined]. *)
Record client := Client {
  id : option string;
  keepalive : option Z;
  timer : option nat;
  stream_ended : bool;
  listeners : bool
}.

(** The object the codec passes to [serve]: nothing set, handlers about to
    be attached. *)
Definition fresh_client : client :=
  Client None None None false true.

Record subscription := Sub { topic : string; qos : Z }.

(** Packet events delivered by the codec. *)
Inductive packet :=
| Connect (client_id : string) (keepalive_s : Z)
| Pingreq
| Subscribe (messageId : Z) (subscriptions : list subscription)
| Publish (ptopic payload : string)
| Unsubscribe (messageId : Z) (unsubscriptions : list string)
| Disconnect
| Error.

(** What the server writes back through the codec. *)
Inductive reply :=
| Connack (returnCode : Z)
| Pingresp
| Suback (messageId : Z) (granted : list Z)
| Unsuback (messageId : Z)
| Forward (ftopic fpayload : string).

(** Notifications of the server's EventEmitter. *)
Inductive event :=
| ClientConnected (c : nat)
| ClientDisconnected (c : nat)
| Published (ptopic payload : string) (c : nat).

(** Calls made on the Ascoltatori bus; [c] stands for the [forward]
    closure of client [c]. *)
Inductive bus_call :=
| BusSubscribe (t : string) (c : nat)
| BusUnsubscribe (t : string) (c : nat)
| BusPublish (t payload : string).

(** A function value that can sit in the tick queue or be handed to the
    bus: a function of the host application, known by a tag, or the
    per-task callback of an [async.parallel] join. *)
Inductive callback :=
| HostFn (f : nat)
| ParallelCb (j : nat).

(** The three final callbacks handed to [async.parallel] in the file. *)
Inductive final :=
| FinSuback (c : nat) (messageId : Z) (granted : list Z)
| FinUnsuback (c : nat) (messageId : Z)
| FinServerClose (callback : option nat).

(** The counter [async.parallel] keeps for one call. *)
Record join := Join { total : nat; completed : nat; fin : final }.

Inductive exn := TypeError | NotRunning.

Global Instance client_eq_dec : EqDecision client.
Proof. solve_decision. Defined.
Global Instance subscription_eq_dec : EqDecision subscription.
Proof. solve_decision. Defined.
Global Instance reply_eq_dec : EqDecision reply.
Proof. solve_decision. Defined.
Global Instance event_eq_dec : EqDecision event.
Proof. solve_decision. Defined.
Global Instance callback_eq_dec : EqDecision callback.
Proof. solve_decision. Defined.
Global Instance exn_eq_dec : EqDecision exn.
Proof. solve_decision. Defined.

(** ** The state of the process *)

Record state := State {
  clients : list (string * nat);       (* this.clients, in property order *)
  heap : list client;                  (* client objects, by reference *)
  listening : bool;                    (* this.server is bound *)
  closeListeners : list nat;           (* callbacks given to server.close *)
  timers : gmap nat (nat * Z);         (* pending timeouts: client, deadline *)
  nextTimer : nat;
  now : Z;                             (* milliseconds *)
  tickQueue : list callback;           (* process.nextTick queue *)
  joins : list join;                   (* async.parallel counters *)
  busPending : gmap nat callback;      (* bus operations not yet done *)
  nextOp : nat;
  busLog : list bus_call;
  sent : list (nat * reply);           (* packets written, per client *)
  emitted : list event;
  called : list nat                    (* host functions invoked *)
}.

(** The state right after [new Server(opts, callback)] has bound its port. *)
Definition init : state :=
  State [] [] true [] ∅ 0 0%Z [] [] ∅ 0 [] [] [] [].

Definition set_clients (f : list (string * nat) → list (string * nat)) (s : state) : state :=
  State (f (clients s)) (heap s) (listening s) (closeListeners s) (timers s)
    (nextTimer s) (now s) (tickQueue s) (joins s) (busPending s) (nextOp s)
    (busLog s) (sent s) (emitted s) (called s).
Definition set_heap (f : list client → list client) (s : state) : state :=
  State (clients s) (f (heap s)) (listening s) (closeListeners s) (timers s)
    (nextTimer s) (now s) (tickQueue s) (joins s) (busPending s) (nextOp s)
    (busLog s) (sent s) (emitted s) (called s).
Definition set_listening (f : bool → bool) (s : state) : state :=
  State (clients s) (heap s) (f (listening s)) (closeListeners s) (timers s)
    (nextTimer s) (now s) (tickQueue s) (joins s) (busPending s) (nextOp s)
    (busLog s) (sent s) (emitted s) (called s).
Definition set_closeListeners (f : list nat → list nat) (s : state) : state :=
  State (clients s) (heap s) (listening s) (f (closeListeners s)) (timers s)
    (nextTimer s) (now s) (tickQueue s) (joins s) (busPending s) (nextOp s)
    (busLog s) (sent s) (emitted s) (called s).
Definition set_timers (f : gmap nat (nat * Z) → gmap nat (nat * Z)) (s : state) : state :=
  State (clients s) (heap s) (listening s) (closeListeners s) (f (timers s))
    (nextTimer s) (now s) (tickQueue s) (joins s) (busPending s) (nextOp s)
    (busLog s) (sent s) (emitted s) (called s).
Definition set_nextTimer (f : nat → nat) (s : state) : state :=
  State (clients s) (heap s) (listening s) (closeListeners s) (timers s)
    (f (nextTimer s)) (now s) (tickQueue s) (joins s) (busPending s) (nextOp s)
    (busLog s) (sent s) (emitted s) (called s).
Definition set_now (f : Z → Z) (s : state) : state :=
  State (clients s) (heap s) (listening s) (closeListeners s) (timers s)
    (nextTimer s) (f (now s)) (tickQueue s) (joins s) (busPending s) (nextOp s)
    (busLog s) (sent s) (emitted s) (called s).
Definition set_tickQueue (f : list callback → list callback) (s : state) : state :=
  State (clients s) (heap s) (listening s) (closeListeners s) (timers s)
    (nextTimer s) (now s) (f (tickQueue s)) (joins s) (busPending s) (nextOp s)
    (busLog s) (sent s) (emitted s) (called s).
Definition set_joins (f : list join → list join) (s : state) : state :=
  State (clients s) (heap s) (listening s) (closeListeners s) (timers s)
    (nextTimer s) (now s) (tickQueue s) (f (joins s)) (busPending s) (nextOp s)
    (busLog s) (sent s) (emitted s) (called s).
Definition set_busPending (f : gmap nat callback → gmap nat callback) (s : state) : state :=
  State (clients s) (heap s) (listening s) (closeListeners s) (timers s)
    (nextTimer s) (now s) (tickQueue s) (joins s) (f (busPending s)) (nextOp s)
    (busLog s) (sent s) (emitted s) (called s).
Definition set_nextOp (f : nat → nat) (s : state) : state :=
  State (clients s) (heap s) (listening s) (closeListeners s) (timers s)
    (nextTimer s) (now s) (tickQueue s) (joins s) (busPending s) (f (nextOp s))
    (busLog s) (sent s) (emitted s) (called s).
Definition set_busLog (f : list bus_call → list bus_call) (s : state) : state :=
  State (clients s) (heap s) (listening s) (closeListeners s) (timers s)
    (nextTimer s) (now s) (tickQueue s) (joins s) (busPending s) (nextOp s)
    (f (busLog s)) (sent s) (emitted s) (called s).
Definition set_sent (f : list (nat * reply) → list (nat * reply)) (s : state) : state :=
  State (clients s) (heap s) (listening s) (closeListeners s) (timers s)
    (nextTimer s) (now s) (tickQueue s) (joins s) (busPending s) (nextOp s)
    (busLog s) (f (sent s)) (emitted s) (called s).
Definition set_emitted (f : list event → list event) (s : state) : state :=
  State (clients s) (heap s) (listening s) (closeListeners s) (timers s)
    (nextTimer s) (now s) (tickQueue s) (joins s) (busPending s) (nextOp s)
    (busLog s) (sent s) (f (emitted s)) (called s).
Definition set_called (f : list nat → list nat) (s : state) : state :=
  State (clients s) (heap s) (listening s) (closeListeners s) (timers s)
    (nextTimer s) (now s) (tickQueue s) (joins s) (busPending s) (nextOp s)
    (busLog s) (sent s) (emitted s) (f (called s)).

(** ** A state monad with exceptions

    Every function of the file becomes a computation that threads the
    state and either returns or throws; a throw keeps the state reached so
    far, as a JavaScript exception does. *)

Inductive result (A : Type) :=
| Ok (a : A)
| Raise (e : exn).
Arguments Ok {A} a.
Arguments Raise {A} e.

Definition M (A : Type) : Type := state → result A * state.

Definition ret {A} (a : A) : M A := λ s, (Ok a, s).
Definition bind {A B} (m : M A) (k : A → M B) : M B :=
  λ s, match m s with
       | (Ok a, s') => k a s'
       | (Raise e, s') => (Raise e, s')
       end.
Definition throw {A} (e : exn) : M A := λ s, (Raise e, s).
Definition gets {A} (f : state → A) : M A := λ s, (Ok (f s), s).
Definition modify (f : state → state) : M unit := λ s, (Ok tt, f s).
Definition try_catch {A} (m : M A) (h : exn → M A) : M A :=
  λ s, match m s with
       | (Ok a, s') => (Ok a, s')
       | (Raise e, s') => h e s'
       end.

Declare Scope js_scope.
Delimit Scope js_scope with js.
Notation "'let*' x := m 'in' k" := (bind m (λ x, k))
  (at level 10, x name, m at level 100, k at level 200, only parsing) : js_scope.
Notation "m ;; k" := (bind m (λ _, k))
  (at level 100, k at level 200, right associativity, only parsing) : js_scope.
Local Open Scope js_scope.

Fixpoint forEach {A} (f : A → M unit) (l : list A) : M unit :=
  match l with
  | [] => ret tt
  | x :: r => f x ;; forEach f r
  end.

(** The state a computation leaves, whatever it returned. *)
Definition exec {A} (m : M A) (s : state) : state := (m s).2.

(** ** The collaborators, at their interface *)

(** *** JavaScript objects used as maps

    [this.clients] is a plain object. Assigning a property that exists
    replaces its value in place, assigning a new one appends it, [delete]
    removes it, and [Object.keys] lists the properties in that order.
    Two things V8 does are not modelled. Names that are array indices
    are listed first, in ascending order: what is proved of [close] does
    not depend on the order in which the sessions are listed. The name
    [__proto__] is no property at all: assigning it sets the prototype,
    and [Object.keys] never lists it; what is proved of the sessions
    [close] goes through is stated for registries without that name
    ([proto_free] below). *)
Fixpoint obj_set (k : string) (v : nat) (o : list (string * nat)) : list (string * nat) :=
  match o with
  | [] => [(k, v)]
  | (k', v') :: r =>
      if decide (k' = k) then (k, v) :: r else (k', v') :: obj_set k v r
  end.

Fixpoint obj_get (k : string) (o : list (string * nat)) : option nat :=
  match o with
  | [] => None
  | (k', v) :: r => if decide (k' = k) then Some v else obj_get k r
  end.

Fixpoint obj_delete (k : string) (o : list (string * nat)) : list (string * nat) :=
  match o with
  | [] => []
  | (k', v) :: r =>
      if decide (k' = k) then obj_delete k r else (k', v) :: obj_delete k r
  end.

Definition obj_keys (o : list (string * nat)) : list string := o.*1.

(** [if (client.id)]: [undefined] and the empty string are both falsy. *)
Definition truthy (v : option string) : bool :=
  match v with
  | Some s => negb (String.eqb s EmptyString)
  | None => false
  end.

(** *** Client objects *)

(** Reading a field of the object behind a reference; reading a field of
    [undefined] is a TypeError. *)
Definition deref (ref : option nat) : M (nat * client) :=
  match ref with
  | None => throw TypeError
  | Some c =>
      let* o := gets (λ s, heap s !! c) in
      match o with
      | Some o => ret (c, o)
      | None => throw TypeError
      end
  end.

Definition update (c : nat) (f : client → client) : M unit :=
  modify (set_heap (alter f c)).

Definition with_id (v : option string) (o : client) : client :=
  Client v (keepalive o) (timer o) (stream_ended o) (listeners o).
Definition with_keepalive (v : option Z) (o : client) : client :=
  Client (id o) v (timer o) (stream_ended o) (listeners o).
Definition with_timer (v : option nat) (o : client) : client :=
  Client (id o) (keepalive o) v (stream_ended o) (listeners o).
Definition with_stream_ended (v : bool) (o : client) : client :=
  Client (id o) (keepalive o) (timer o) v (listeners o).
Definition with_listeners (v : bool) (o : client) : client :=
  Client (id o) (keepalive o) (timer o) (stream_ended o) v.

(** [client.stream.end()] and [client.removeAllListeners()]. *)
Definition stream_end (c : nat) : M unit := update c (with_stream_ended true).
Definition removeAllListeners (c : nat) : M unit := update c (with_listeners false).

(** Writing a packet to a client, and [this.emit]: the host's listeners
    are opaque, a notification is only recorded. *)
Definition send (c : nat) (r : reply) : M unit :=
  modify (set_sent (λ l, l ++ [(c, r)])).
Definition emit (e : event) : M unit :=
  modify (set_emitted (λ l, l ++ [e])).

(** *** Node timers

    [setTimeout(f, ms)] with [ms] not in [1 .. 2^31-1] (which includes
    NaN, here [None]) waits one millisecond. The only function the file
    ever schedules is [function() { that.closeConn(client) }], so a
    pending timer holds the client it closes. *)
Definition TIMEOUT_MAX : Z := 2147483647.

Definition timeout_after (ms : option Z) : Z :=
  match ms with
  | Some d => if bool_decide (1 ≤ d ∧ d ≤ TIMEOUT_MAX)%Z then d else 1%Z
  | None => 1%Z
  end.

Definition setTimeout (c : nat) (ms : option Z) : M nat :=
  let* h := gets nextTimer in
  let* t := gets now in
  modify (set_timers (insert h (c, (t + timeout_after ms)%Z))) ;;
  modify (set_nextTimer S) ;;
  ret h.

Definition clearTimeout (h : option nat) : M unit :=
  match h with
  | Some h => modify (set_timers (delete h))
  | None => ret tt
  end.

(** *** The net listener

    [server.close(cb)] on a bound listener unbinds it and keeps [cb] for
    its 'close' event; on a listener that is not bound it throws. *)
Definition server_close (callback : option nat) : M unit :=
  let* up := gets listening in
  if up : bool then
    modify (set_listening (λ _, false)) ;;
    match callback with
    | Some f => modify (set_closeListeners (λ l, l ++ [f]))
    | None => ret tt
    end
  else throw NotRunning.

(** Calling a value the host passed as a callback: calling [undefined] is
    a TypeError; a host function is opaque and only recorded. *)
Definition call (callback : option nat) : M unit :=
  match callback with
  | Some f => modify (set_called (λ l, l ++ [f]))
  | None => throw TypeError
  end.

(** *** The Ascoltatori bus

    The bus is opaque: its calls are recorded, and it reports a
    registration or deregistration done by calling the function it was
    given, at a later turn of its choosing. *)
Definition bus_async (b : bus_call) (cb : callback) : M unit :=
  let* op := gets nextOp in
  modify (set_busLog (λ l, l ++ [b])) ;;
  modify (set_busPending (insert op cb)) ;;
  modify (set_nextOp S).

Definition bus_publish (t payload : string) : M unit :=
  modify (set_busLog (λ l, l ++ [BusPublish t payload])).

(** ** [lib/server.js] *)

(** [next(callback)]: [if (callback) process.nextTick(callback)]. *)
Definition next (callback : option callback) : M unit :=
  match callback with
  | Some cb => modify (set_tickQueue (λ q, q ++ [cb]))
  | None => ret tt
  end.

(** [Server.prototype.closeConn]. Inside the guard [client.id] is a
    string, the property that [delete] removes. *)
Definition closeConn (ref : option nat) (callback : option callback) : M unit :=
  let* co := deref ref in
  let '(c, o) := co in
  (if truthy (id o) then
     clearTimeout (timer o) ;;
     modify (set_clients (obj_delete (default EmptyString (id o))))
   else ret tt) ;;
  stream_end c ;;
  removeAllListeners c ;;
  next callback ;;
  emit (ClientDisconnected c).

(** The final callbacks of the three [async.parallel] calls. The one of
    [close] is [try { that.server.close(callback) } catch (e) { callback() }]. *)
Definition run_final (f : final) : M unit :=
  match f with
  | FinSuback c messageId granted => send c (Suback messageId granted)
  | FinUnsuback c messageId => send c (Unsuback messageId)
  | FinServerClose callback =>
      try_catch (server_close callback) (λ _, call callback)
  end.

(** The callback [async.parallel] gives each task:
    [completed += 1; if (completed === arr.length) callback(null)]. *)
Definition task_done (j : nat) : M unit :=
  let* jn := gets (λ s, joins s !! j) in
  match jn with
  | None => ret tt
  | Some jn =>
      modify (set_joins (<[j := Join (total jn) (S (completed jn)) (fin jn)]>)) ;;
      if decide (S (completed jn) = total jn) then run_final (fin jn) else ret tt
  end.

Definition invoke (cb : callback) : M unit :=
  match cb with
  | HostFn f => call (Some f)
  | ParallelCb j => task_done j
  end.

(** [async.parallel(tasks, callback)]: with no task the callback runs at
    once; otherwise every task is started, in order, with a callback that
    counts it. *)
Definition parallel {T} (run_task : T → callback → M unit) (tasks : list T)
    (f : final) : M unit :=
  match tasks with
  | [] => run_final f
  | _ =>
      let* j := gets (λ s, length (joins s)) in
      modify (set_joins (λ l, l ++ [Join (length tasks) 0 f])) ;;
      forEach (λ t, run_task t (ParallelCb j)) tasks
  end.

(** [Server.prototype.close]. The task for the key [k] is
    [function(cb) { that.closeConn(that.clients[id], cb) }]: the registry
    is read when the task runs. *)
Definition close_task (k : string) (cb : callback) : M unit :=
  let* ref := gets (λ s, obj_get k (clients s)) in
  closeConn ref (Some cb).

Definition close (callback : option nat) : M unit :=
  let* keys := gets (λ s, obj_keys (clients s)) in
  parallel close_task keys (FinServerClose callback).

(** [setUpTimer] of [serve]; [client.keepalive * 1000 * 5/4] is NaN while
    [client.keepalive] is undefined, and for an integer keepalive it is the
    integer [keepalive * 1250], so the division is exact. *)
Definition keepalive_ms (k : option Z) : option Z :=
  (λ k, k * 1000 * 5 / 4)%Z <$> k.

Definition setUpTimer (c : nat) : M unit :=
  let* co := deref (Some c) in
  let '(_, o) := co in
  (match timer o with
   | Some h => clearTimeout (Some h)
   | None => ret tt
   end) ;;
  let* h := setTimeout c (keepalive_ms (keepalive o)) in
  update c (with_timer (Some h)).

(** [forward] of [serve]. *)
Definition forward (c : nat) (t payload : string) : M unit :=
  send c (Forward t payload).

(** The handlers [serve] attaches to a client. *)
Definition on_connect (c : nat) (client_id : string) (keepalive_s : Z) : M unit :=
  update c (with_id (Some client_id)) ;;
  update c (with_keepalive (Some keepalive_s)) ;;
  modify (set_clients (obj_set client_id c)) ;;
  setUpTimer c ;;
  send c (Connack 0) ;;
  emit (ClientConnected c).

Definition on_pingreq (c : nat) : M unit :=
  setUpTimer c ;;
  send c Pingresp.

Definition on_subscribe (c : nat) (messageId : Z) (subscriptions : list subscription) : M unit :=
  let granted := map (λ _, 0%Z) subscriptions in
  parallel (λ s cb, bus_async (BusSubscribe (topic s) c) cb) subscriptions
    (FinSuback c messageId granted).

Definition on_publish (c : nat) (t payload : string) : M unit :=
  bus_publish t payload ;;
  emit (Published t payload c).

Definition on_unsubscribe (c : nat) (messageId : Z) (unsubscriptions : list string) : M unit :=
  parallel (λ t cb, bus_async (BusUnsubscribe t c) cb) unsubscriptions
    (FinUnsuback c messageId).

Definition handler (c : nat) (p : packet) : M unit :=
  match p with
  | Connect client_id keepalive_s => on_connect c client_id keepalive_s
  | Pingreq => on_pingreq c
  | Subscribe messageId subscriptions => on_subscribe c messageId subscriptions
  | Publish t payload => on_publish c t payload
  | Unsubscribe messageId unsubscriptions => on_unsubscribe c messageId unsubscriptions
  | Disconnect => closeConn (Some c) None
  | Error => closeConn (Some c) None
  end.

(** [Server.prototype.serve]: the client object enters the store with its
    handlers attached. *)
Definition serve : M unit :=
  modify (set_heap (λ l, l ++ [fresh_client])).

(** ** The event loop *)

(** The codec emits a packet event on a client: its handler runs if the
    listeners are still attached. *)
Definition deliver (c : nat) (p : packet) : M unit :=
  let* o := gets (λ s, heap s !! c) in
  match o with
  | Some o => if listeners o then handler c p else ret tt
  | None => ret tt
  end.

(** The bus reports operation [op] done. *)
Definition bus_done (op : nat) : M unit :=
  let* cb := gets (λ s, busPending s !! op) in
  match cb with
  | Some cb => modify (set_busPending (delete op)) ;; invoke cb
  | None => ret tt
  end.

(** The bus calls the [forward] handler it holds for client [c]. *)
Definition bus_deliver (c : nat) (t payload : string) : M unit :=
  let* o := gets (λ s, heap s !! c) in
  match o with
  | Some _ => forward c t payload
  | None => ret tt
  end.

(** The listener's 'close' event: the callbacks given to [server.close]
    are called, once each. Node emits the event once the listener is
    unbound and every connection has ended; when the connections end is
    up to the peers as much as to the broker, so the loop may run this
    task at any turn, and every schedule of Node is one of the loop's.
    Where a property says that the event calls a callback of [close], it
    says so of states in which the broker has ended every connection
    ([drained] below), or of the order of the calls only. *)
Definition listener_closed : M unit :=
  let* up := gets listening in
  if up : bool then ret tt
  else
    let* fs := gets closeListeners in
    modify (set_closeListeners (λ _, [])) ;;
    forEach (λ f, call (Some f)) fs.

(** A timeout fires: it leaves the timer table and its function runs. *)
Definition fire (h : nat) : M unit :=
  let* t := gets (λ s, timers s !! h) in
  match t with
  | Some (c, _) => modify (set_timers (delete h)) ;; closeConn (Some c) None
  | None => ret tt
  end.

(** Timers that have expired at time [t], earliest deadline first. *)
Definition earlier (x y : nat * (nat * Z)) : Prop :=
  (x.2.2 < y.2.2)%Z ∨ (x.2.2 = y.2.2 ∧ x.1 ≤ y.1).

Global Instance earlier_dec : RelDecision earlier.
Proof. intros x y. unfold earlier. apply _. Defined.

Definition expired (t : Z) (s : state) : list nat :=
  (merge_sort earlier
     (filter (λ x, (x.2.2 ≤ t)%Z) (map_to_list (timers s)))).*1.

(** [ms] milliseconds pass and every timer that has expired by then runs. *)
Definition elapse (ms : N) : M unit :=
  modify (set_now (λ t, (t + Z.of_N ms)%Z)) ;;
  let* hs := gets (λ s, expired (now s) s) in
  forEach fire hs.

(** Running the tick queue until it is empty. A callback that throws does
    not keep the later ones from running; the first exception is the
    outcome. The callbacks of this file never queue another one, so the
    length of the queue is enough fuel. *)
Fixpoint run_ticks (fuel : nat) : M unit :=
  match fuel with
  | O => ret tt
  | S n =>
      let* q := gets tickQueue in
      match q with
      | [] => ret tt
      | cb :: q' =>
          modify (set_tickQueue (λ _, q')) ;;
          λ s, match invoke cb s with
               | (Ok _, s') => run_ticks n s'
               | (Raise e, s') => (Raise e, (run_ticks n s').2)
               end
      end
  end.

Definition drain : M unit :=
  let* n := gets (λ s, length (tickQueue s)) in
  run_ticks n.

(** What the event loop can run next. *)
Inductive label :=
| Accept
| Packet (c : nat) (p : packet)
| BusDone (op : nat)
| BusDeliver (c : nat) (t payload : string)
| Elapse (ms : N)
| ListenerClosed
| HostClose (callback : option nat).

Definition task (l : label) : M unit :=
  match l with
  | Accept =>
      let* up := gets listening in
      if up : bool then serve else ret tt
  | Packet c p => deliver c p
  | BusDone op => bus_done op
  | BusDeliver c t payload => bus_deliver c t payload
  | Elapse ms => elapse ms
  | ListenerClosed => listener_closed
  | HostClose callback => close callback
  end.

(** One turn of the loop: the task, then the tick queue, which runs even
    when the task threw. The outcome is the first exception, if any. *)
Definition turn (l : label) : M unit :=
  λ s, match task l s with
       | (Ok _, s') => drain s'
       | (Raise e, s') => (Raise e, (drain s').2)
       end.

Definition step (s : state) (l : label) : state := exec (turn l) s.

Definition run (s : state) (ls : list label) : state := foldl step s ls.

Inductive reachable : state → Prop :=
| reachable_init : reachable init
| reachable_step s l : reachable s → reachable (step s l).

(** * The vocabulary of the properties *)

(** The number of properties of [o] named [k]. *)
Definition entries (k : string) (o : list (string * nat)) : nat :=
  length (filter (λ kv, kv.1 = k) o).

(** [m] keeps [P]: whatever [m] returns, [P] holds afterwards if it held
    before. *)
Definition preserves {A} (P : state → Prop) (m : M A) : Prop :=
  ∀ s, P s → P (m s).2.

(** No two properties of [this.clients] have the same name. *)
Definition unique_keys (s : state) : Prop := NoDup (obj_keys (clients s)).

(** Every pending timer is the one its client holds in [client.timer];
    handles are never reused and never shared. *)
Record timers_ok (s : state) : Prop := TimersOk {
  timers_held : ∀ h c d, timers s !! h = Some (c, d) →
    ∃ o, heap s !! c = Some o ∧ timer o = Some h;
  timers_fresh : ∀ c o h, heap s !! c = Some o → timer o = Some h →
    h < nextTimer s;
  timers_inj : ∀ c1 c2 o1 o2 h,
    heap s !! c1 = Some o1 → heap s !! c2 = Some o2 →
    timer o1 = Some h → timer o2 = Some h → c1 = c2
}.

(** What [setUpTimer] leaves behind, in one piece. *)
Definition rearmed (c : nat) (o : client) (s : state) : state :=
  set_heap (alter (with_timer (Some (nextTimer s))) c)
    (set_nextTimer S
       (set_timers
          (insert (nextTimer s)
             (c, (now s + timeout_after (keepalive_ms (keepalive o)))%Z))
          (match timer o with
           | Some h => set_timers (delete h) s
           | None => s
           end))).

(** The state after the connect handler ran on client [c], whose object
    was [o]. *)
Definition connected (c : nat) (X : string) (K : Z) (o : client) (s : state) : state :=
  let o' := with_keepalive (Some K) (with_id (Some X) o) in
  set_emitted (λ l, l ++ [ClientConnected c])
    (set_sent (λ l, l ++ [(c, Connack 0)])
       (rearmed c o'
          (set_clients (obj_set X c)
             (set_heap (alter (with_keepalive (Some K)) c)
                (set_heap (alter (with_id (Some X)) c) s))))).

(** The state after [closeConn] ran on client [c], whose object was [o]. *)
Definition closed (c : nat) (o : client) (cb : option callback) (s : state) : state :=
  set_emitted (λ l, l ++ [ClientDisconnected c])
    (match cb with
     | Some cb => set_tickQueue (λ q, q ++ [cb])
     | None => λ s, s
     end
       (set_heap (alter (with_listeners false) c)
          (set_heap (alter (with_stream_ended true) c)
             (if truthy (id o) then
                set_clients (obj_delete (default EmptyString (id o)))
                  (match timer o with
                   | Some h => set_timers (delete h) s
                   | None => s
                   end)
              else s)))).

(** The state after a run of asynchronous bus calls, each given [cb]. *)
Definition bus_started (bs : list bus_call) (cb : callback) (s : state) : state :=
  foldl (λ s b, set_nextOp S (set_busPending (insert (nextOp s) cb)
                                (set_busLog (λ l, l ++ [b]) s))) s bs.

(** The pending timers that close client [c]. *)
Definition pending_for (c : nat) (s : state) : list (nat * (nat * Z)) :=
  filter (λ x, x.2.1 = c) (map_to_list (timers s)).

(** The packets a client may send besides connect and disconnect. *)
Definition after_connect (p : packet) : bool :=
  match p with
  | Pingreq | Subscribe _ _ | Publish _ _ | Unsubscribe _ _ => true
  | _ => false
  end.

(** What the handling of a subscribe, publish or unsubscribe packet [p]
    of client [c] amounts to, from the state [s] on. The turn ends without
    an exception; the sessions, the registry, the timers, the listener and
    the host's callbacks are left alone; the bus is called; and the client
    is answered: a subscribe and an unsubscribe by one acknowledgment,
    written when the bus has completed the last of the calls, whatever
    their order, and not before; a publish by nothing. *)
Definition processed (c : nat) (p : packet) (s : state) : Prop :=
  let s' := step s (Packet c p) in
  turn (Packet c p) s = (Ok tt, s') ∧
  clients s' = clients s ∧ heap s' = heap s ∧ timers s' = timers s ∧
  listening s' = listening s ∧ called s' = called s ∧
  match p with
  | Subscribe R subs =>
      let n := length subs in
      busLog s' = busLog s ++ ((λ x, BusSubscribe (topic x) c) <$> subs) ∧
      emitted s' = emitted s ∧
      ∀ order k, order ≡ₚ seq (nextOp s) n → k ≤ n →
        sent (run s' (BusDone <$> take k order)) =
          sent s ++ (if decide (k = n)
                     then [(c, Suback R (replicate n 0%Z))] else [])
  | Publish t m =>
      busLog s' = busLog s ++ [BusPublish t m] ∧
      emitted s' = emitted s ++ [Published t m c] ∧
      sent s' = sent s
  | Unsubscribe R ts =>
      let n := length ts in
      busLog s' = busLog s ++ ((λ t, BusUnsubscribe t c) <$> ts) ∧
      emitted s' = emitted s ∧
      ∀ order k, order ≡ₚ seq (nextOp s) n → k ≤ n →
        sent (run s' (BusDone <$> take k order)) =
          sent s ++ (if decide (k = n) then [(c, Unsuback R)] else [])
  | _ => False
  end.

(** How many times the disconnection of [c] has been notified. *)
Definition disconnections (c : nat) (s : state) : nat :=
  length (filter (λ e, e = ClientDisconnected c) (emitted s)).

(** The deadline of the timer that client [c] holds, while it is pending. *)
Definition deadline (c : nat) (s : state) : option Z :=
  match heap s !! c with
  | Some o =>
      match timer o with
      | Some h => snd <$> timers s !! h
      | None => None
      end
  | None => None
  end.

(** The packets that [serve] answers by rearming the timer. *)
Definition rearms (p : packet) : bool :=
  match p with
  | Connect _ _ | Pingreq => true
  | _ => false
  end.

(** Every registry entry is filed under the id its session has now. *)
Definition consistent (s : state) : Prop :=
  ∀ k c, (k, c) ∈ clients s → ∃ o, heap s !! c = Some o ∧ id o = Some k.


(** Join [j] is one whose final callback would stop the listener and call
    the host function [f]. *)
Definition calls_back (f : nat) (s : state) (j : nat) : Prop :=
  ∃ jn, joins s !! j = Some jn ∧ fin jn = FinServerClose (Some f).

(** Running [cb] cannot lead to a call of [f]. *)
Definition harmless (f : nat) (s : state) (cb : callback) : Prop :=
  match cb with
  | HostFn g => g ≠ f
  | ParallelCb j => ¬ calls_back f s j
  end.

(** Nothing in the state can lead to a call of the host function [f]: it
    has not been called, the listener does not hold it, and no queued or
    pending callback leads to it. *)
Definition never_due (f : nat) (s : state) : Prop :=
  (f ∉ called s) ∧ (f ∉ closeListeners s) ∧
  (∀ cb, cb ∈ tickQueue s → harmless f s cb) ∧
  (∀ op cb, busPending s !! op = Some cb → harmless f s cb).

(** One client connected as "c1" with a keepalive of 2 seconds. *)
Definition one_session : state :=
  run init [Accept; Packet 0 (Connect "c1" 2)].

(** The same, and a second connection accepted that has sent nothing. *)
Definition one_session_one_pending : state :=
  run init [Accept; Packet 0 (Connect "c1" 2); Accept].

(** A connection accepted that has sent nothing. *)
Definition one_pending : state := run init [Accept].

(** A client with a keepalive of 1 second that has been silent for one
    second since it connected. *)
Definition silent_for_a_second : state :=
  run init [Accept; Packet 0 (Connect "c1" 1); Elapse 1000].

(** A client that connected with a keepalive of 0. *)
Definition zero_keepalive : state :=
  run init [Accept; Packet 0 (Connect "c1" 0)].

(** A client that connected with the empty string as its id. *)
Definition empty_id : state :=
  run init [Accept; Packet 0 (Connect EmptyString 2)].

(** A connection that sent connect twice, as "a" and then as "b". *)
Definition renamed : state :=
  run init [Accept; Packet 0 (Connect "a" 2); Packet 0 (Connect "b" 2)].


(** ** Further vocabulary *)

(** Client [c] is out of the broker's hands: its listeners are detached,
    no timer will close it and no registry entry points to it. *)
Definition retired (c : nat) (s : state) : Prop :=
  (∃ o, heap s !! c = Some o ∧ listeners o = false) ∧
  (∀ h d, timers s !! h ≠ Some (c, d)) ∧
  (∀ k, (k, c) ∉ clients s).

(** Client [c] is retired with the object [o], and its disconnection has
    been notified [N] times. *)
Definition settled (c : nat) (o : client) (N : nat) (s : state) : Prop :=
  retired c s ∧ heap s !! c = Some o ∧ disconnections c s = N.

(** The turns in which [lib/server.js] calls the bus: the subscribe,
    publish and unsubscribe packets. *)
Definition calls_bus (l : label) : bool :=
  match l with
  | Packet _ (Subscribe _ _) | Packet _ (Publish _ _)
  | Packet _ (Unsubscribe _ _) => true
  | _ => false
  end.

(** A connect packet that gives a connection another client id than the
    one it has. *)
Definition renames (l : label) (s : state) : Prop :=
  match l with
  | Packet c (Connect X _) =>
      ∃ o k, heap s !! c = Some o ∧ listeners o = true ∧ id o = Some k ∧ k ≠ X
  | _ => False
  end.

(** Every registry entry points to a client object that satisfies [φ]
    for the key it is filed under. *)
Definition all_entries (φ : string → client → Prop) (s : state) : Prop :=
  ∀ k c, (k, c) ∈ clients s → ∃ o, heap s !! c = Some o ∧ φ k o.

(** The session has been through the connect handler: it has an id, a
    keepalive and a timer handle. *)
Definition has_connected (o : client) : Prop :=
  is_Some (id o) ∧ is_Some (keepalive o) ∧ is_Some (timer o).

(** No session is filed under the name [__proto__]. In V8 the assignment
    [this.clients["__proto__"] = client] makes no property: it sets the
    prototype of the registry, [Object.keys] does not list it and [delete]
    leaves it; [obj_set] files the name like any other. What is said
    below of the sessions [close] goes through is said of registries
    without that name. *)
Definition proto_free (s : state) : Prop :=
  ∀ c, ("__proto__"%string, c) ∉ clients s.


(** * Properties *)

(** ** States *)

(** Two states with the same fields are the same state. *)
Lemma state_ext (s s' : state) :
  clients s = clients s' → heap s = heap s' → listening s = listening s' →
  closeListeners s = closeListeners s' → timers s = timers s' →
  nextTimer s = nextTimer s' → now s = now s' → tickQueue s = tickQueue s' →
  joins s = joins s' → busPending s = busPending s' → nextOp s = nextOp s' →
  busLog s = busLog s' → sent s = sent s' → emitted s = emitted s' →
  called s = called s' → s = s'.
Proof. destruct s, s'; simpl; intros; subst; reflexivity. Qed.

(** ** Objects used as maps *)

Section objects.
Implicit Types (k : string) (v : nat) (o : list (string * nat)).

Lemma obj_get_set_eq k v o : obj_get k (obj_set k v o) = Some v.
Proof.
  induction o as [|[k' v'] r IH]; simpl.
  - by rewrite decide_True.
  - destruct (decide (k' = k)) as [->|Hne]; simpl.
    + by rewrite decide_True.
    + by rewrite decide_False.
Qed.

Lemma obj_get_set_ne k k' v o :
  k ≠ k' → obj_get k' (obj_set k v o) = obj_get k' o.
Proof.
  intros Hne. induction o as [|[k0 v0] r IH]; simpl.
  - by rewrite decide_False.
  - destruct (decide (k0 = k)) as [->|Hk]; simpl.
    + by rewrite !decide_False.
    + by rewrite IH.
Qed.

Lemma obj_get_delete_eq k o : obj_get k (obj_delete k o) = None.
Proof.
  induction o as [|[k' v'] r IH]; simpl; [done|].
  destruct (decide (k' = k)); simpl; [done|]. by rewrite decide_False.
Qed.

Lemma obj_get_delete_ne k k' o :
  k ≠ k' → obj_get k' (obj_delete k o) = obj_get k' o.
Proof.
  intros Hne. induction o as [|[k0 v0] r IH]; simpl; [done|].
  destruct (decide (k0 = k)) as [->|Hk]; simpl.
  - by rewrite decide_False.
  - by rewrite IH.
Qed.

Lemma obj_keys_delete k o :
  obj_keys (obj_delete k o) = filter (λ k', k' ≠ k) (obj_keys o).
Proof.
  unfold obj_keys. induction o as [|[k' v'] r IH]; simpl; [done|].
  rewrite filter_cons. simpl.
  destruct (decide (k' = k)) as [->|Hne].
  - by rewrite decide_False by auto.
  - rewrite decide_True by done. rewrite fmap_cons. by f_equal.
Qed.

Lemma obj_keys_set k v o :
  obj_keys (obj_set k v o) =
    if decide (k ∈ obj_keys o) then obj_keys o else obj_keys o ++ [k].
Proof.
  unfold obj_keys. induction o as [|[k' v'] r IH].
  - done.
  - cbn [obj_set]. rewrite !fmap_cons. cbn [fst].
    destruct (decide (k' = k)) as [->|Hne].
    + rewrite decide_True; [done|]. apply list_elem_of_here.
    + rewrite fmap_cons, IH. cbn [fst].
      destruct (decide (k ∈ r.*1)) as [Hin|Hnin].
      * rewrite decide_True; [done|]. by apply list_elem_of_further.
      * rewrite decide_False; [done|].
        intros [Heq|Hin]%elem_of_cons; [by apply Hne|by apply Hnin].
Qed.

Lemma obj_get_None k o : obj_get k o = None ↔ k ∉ obj_keys o.
Proof.
  unfold obj_keys. induction o as [|[k' v'] r IH]; simpl.
  - split; [intros _; apply not_elem_of_nil|done].
  - destruct (decide (k' = k)) as [->|Hne].
    + split; [done|]. intros []. apply list_elem_of_here.
    + rewrite IH. rewrite not_elem_of_cons.
      split; [intros H; split; [congruence|done]|by intros [_ H]].
Qed.

Lemma obj_get_elem_of k v o : obj_get k o = Some v → (k, v) ∈ o.
Proof.
  induction o as [|[k' v'] r IH]; simpl; [done|].
  destruct (decide (k' = k)) as [->|Hne].
  - intros [= ->]. apply list_elem_of_here.
  - intros. apply list_elem_of_further. auto.
Qed.


Lemma obj_set_NoDup k v o : NoDup (obj_keys o) → NoDup (obj_keys (obj_set k v o)).
Proof.
  intros Hnd. rewrite obj_keys_set. case_decide; [done|].
  apply NoDup_app. split_and!; [done| |apply NoDup_singleton].
  intros x Hx ->%list_elem_of_singleton. done.
Qed.

Lemma obj_delete_NoDup k o : NoDup (obj_keys o) → NoDup (obj_keys (obj_delete k o)).
Proof. intros Hnd. rewrite obj_keys_delete. by apply NoDup_filter. Qed.

Lemma entries_not_in k o : k ∉ obj_keys o → entries k o = 0.
Proof.
  unfold entries, obj_keys. induction o as [|[k' v'] r IH]; simpl; [done|].
  intros [Hne Hnin]%not_elem_of_cons. rewrite filter_cons. simpl.
  rewrite decide_False by done. auto.
Qed.

Lemma entries_NoDup k o : NoDup (obj_keys o) → entries k o ≤ 1.
Proof.
  unfold entries, obj_keys. induction o as [|[k' v'] r IH]; simpl; [lia|].
  intros [Hnin Hnd]%NoDup_cons. rewrite filter_cons. simpl.
  destruct (decide (k' = k)) as [->|Hne]; simpl; [|auto].
  pose proof (entries_not_in k r Hnin) as E. unfold entries in E. lia.
Qed.
End objects.

(** ** Reasoning about computations *)

Section preserves.
Context (P : state → Prop).

Lemma preserves_ret {A} (a : A) : preserves P (ret a).
Proof. by intros s. Qed.

Lemma preserves_throw {A} e : preserves P (@throw A e).
Proof. by intros s. Qed.

Lemma preserves_gets {A} (f : state → A) : preserves P (gets f).
Proof. by intros s. Qed.

Lemma preserves_modify f : (∀ s, P s → P (f s)) → preserves P (modify f).
Proof. intros H s Hs. by apply H. Qed.

Lemma preserves_bind {A B} (m : M A) (k : A → M B) :
  preserves P m → (∀ a, preserves P (k a)) → preserves P (bind m k).
Proof.
  intros Hm Hk s Hs. unfold bind. specialize (Hm s Hs).
  destruct (m s) as [[a|e] s']; simpl in *; [by apply Hk|done].
Qed.

Lemma preserves_try_catch {A} (m : M A) h :
  preserves P m → (∀ e, preserves P (h e)) → preserves P (try_catch m h).
Proof.
  intros Hm Hh s Hs. unfold try_catch. specialize (Hm s Hs).
  destruct (m s) as [[a|e] s']; simpl in *; [done|by apply Hh].
Qed.

Lemma preserves_forEach {A} (f : A → M unit) l :
  (∀ x, preserves P (f x)) → preserves P (forEach f l).
Proof.
  intros Hf. induction l as [|x r IH]; simpl.
  - apply preserves_ret.
  - apply preserves_bind; auto.
Qed.
End preserves.

(** Breaks a computation down along its syntax, leaving the state changes. *)
Ltac pres :=
  repeat match goal with
    | |- preserves _ (ret _) => apply preserves_ret
    | |- preserves _ (throw _) => apply preserves_throw
    | |- preserves _ (gets _) => apply preserves_gets
    | |- preserves _ (bind _ _) => apply preserves_bind; [|intros ?]
    | |- preserves _ (try_catch _ _) => apply preserves_try_catch; [|intros ?]
    | |- preserves _ (forEach _ _) => apply preserves_forEach; intros ?
    | |- preserves _ (match ?x with _ => _ end) => destruct x
    end.

(** ** Invariants of the event loop *)

Lemma lookup_alter_timer (f : client → client) c c' (l : list client) o :
  (∀ x, timer (f x) = timer x) →
  alter f c l !! c' = Some o →
  ∃ o0, l !! c' = Some o0 ∧ timer o0 = timer o.
Proof.
  intros Hf. destruct (decide (c = c')) as [->|Hne].
  - rewrite list_lookup_alter_eq. intros (o0 & Ho0 & ->)%fmap_Some.
    rewrite Hf. eauto.
  - rewrite list_lookup_alter_ne by done. eauto.
Qed.

Lemma timers_ok_alter (f : client → client) c s :
  (∀ x, timer (f x) = timer x) →
  timers_ok s → timers_ok (set_heap (alter f c) s).
Proof.
  intros Hf [H1 H2 H3]. split; simpl.
  - intros h c' d Hh. destruct (H1 h c' d Hh) as (o & Ho & Ht).
    destruct (decide (c = c')) as [->|Hne].
    + exists (f o). rewrite list_lookup_alter_eq, Ho. by rewrite Hf.
    + exists o. by rewrite list_lookup_alter_ne.
  - intros c' o h Ho Ht.
    destruct (lookup_alter_timer f c c' _ o Hf Ho) as (o0 & Ho0 & E).
    apply (H2 c' o0); congruence.
  - intros c1 c2 o1 o2 h Ho1 Ho2 Ht1 Ht2.
    destruct (lookup_alter_timer f c c1 _ o1 Hf Ho1) as (x1 & Hx1 & E1).
    destruct (lookup_alter_timer f c c2 _ o2 Hf Ho2) as (x2 & Hx2 & E2).
    apply (H3 c1 c2 x1 x2 h); congruence.
Qed.

Lemma timers_ok_delete h s : timers_ok s → timers_ok (set_timers (delete h) s).
Proof.
  intros [H1 H2 H3]. split; simpl; [|done..].
  intros h' c d Hh. apply lookup_delete_Some in Hh as [_ Hh]. eauto.
Qed.

Lemma timers_ok_serve s : timers_ok s → timers_ok (set_heap (λ l, l ++ [fresh_client]) s).
Proof.
  assert (Hnew : ∀ (l : list client) c o, (l ++ [fresh_client]) !! c = Some o →
            l !! c = Some o ∨ timer o = None).
  { intros l c o Ho. apply lookup_app_Some in Ho as [Ho|[_ Ho]]; [by left|].
    right. apply list_lookup_singleton_Some in Ho as [_ <-]. done. }
  intros [H1 H2 H3]. split; simpl.
  - intros h c d Hh. destruct (H1 h c d Hh) as (o & Ho & Ht).
    exists o. split; [|done]. by apply lookup_app_l_Some.
  - intros c o h Ho Ht. destruct (Hnew _ _ _ Ho) as [Ho'|E]; [eauto|congruence].
  - intros c1 c2 o1 o2 h Ho1 Ho2 Ht1 Ht2.
    destruct (Hnew _ _ _ Ho1) as [Ho1'|E]; [|congruence].
    destruct (Hnew _ _ _ Ho2) as [Ho2'|E]; [eauto|congruence].
Qed.

Arguments rearmed : simpl never.

Lemma setUpTimer_eq c o s :
  heap s !! c = Some o → setUpTimer c s = (Ok tt, rearmed c o s).
Proof.
  intros Ho. unfold setUpTimer, deref, bind, gets. simpl. rewrite Ho. simpl.
  unfold rearmed. by destruct (timer o).
Qed.

Lemma setUpTimer_dangling c s :
  heap s !! c = None → setUpTimer c s = (Raise TypeError, s).
Proof.
  intros Ho. unfold setUpTimer, deref, bind, gets. simpl. by rewrite Ho.
Qed.

Lemma timers_of_rearmed c o s :
  timers (rearmed c o s) =
    <[nextTimer s := (c, (now s + timeout_after (keepalive_ms (keepalive o)))%Z)]>
      (match timer o with Some h => delete h (timers s) | None => timers s end).
Proof. unfold rearmed. by destruct (timer o). Qed.

Lemma heap_of_rearmed c o s :
  heap (rearmed c o s) = alter (with_timer (Some (nextTimer s))) c (heap s).
Proof. unfold rearmed. by destruct (timer o). Qed.

Lemma nextTimer_of_rearmed c o s : nextTimer (rearmed c o s) = S (nextTimer s).
Proof. unfold rearmed. by destruct (timer o). Qed.

Lemma timers_ok_rearmed c o s :
  heap s !! c = Some o → timers_ok s → timers_ok (rearmed c o s).
Proof.
  intros Ho [H1 H2 H3].
  assert (Hold : ∀ h c' d,
    (match timer o with Some h => delete h (timers s) | None => timers s end)
      !! h = Some (c', d) → timers s !! h = Some (c', d) ∧ c' ≠ c).
  { intros h c' d Hh. destruct (timer o) as [h0|] eqn:Et.
    - apply lookup_delete_Some in Hh as [Hne Hh]. split; [done|].
      intros ->. destruct (H1 _ _ _ Hh) as (o' & Ho' & Ht'). congruence.
    - split; [done|]. intros ->.
      destruct (H1 _ _ _ Hh) as (o' & Ho' & Ht'). congruence. }
  split; rewrite ?timers_of_rearmed, ?heap_of_rearmed, ?nextTimer_of_rearmed.
  - intros h c' d Hh. apply lookup_insert_Some in Hh as [[<- [= <- <-]]|[Hne Hh]].
    + exists (with_timer (Some (nextTimer s)) o).
      by rewrite list_lookup_alter_eq, Ho.
    + destruct (Hold _ _ _ Hh) as [Hh' Hc]. destruct (H1 _ _ _ Hh') as (o' & Ho' & Ht').
      exists o'. by rewrite list_lookup_alter_ne.
  - intros c' o' h Ho' Ht'. destruct (decide (c = c')) as [<-|Hne].
    + rewrite list_lookup_alter_eq, Ho in Ho'. simplify_eq/=. lia.
    + rewrite list_lookup_alter_ne in Ho' by done.
      pose proof (H2 _ _ _ Ho' Ht'). lia.
  - intros c1 c2 o1 o2 h Ho1 Ho2 Ht1 Ht2.
    destruct (decide (c = c1)) as [<-|Hne1], (decide (c = c2)) as [<-|Hne2];
      [done|..].
    + rewrite list_lookup_alter_eq, Ho in Ho1. simplify_eq/=.
      rewrite list_lookup_alter_ne in Ho2 by done.
      pose proof (H2 _ _ _ Ho2 Ht2). lia.
    + rewrite list_lookup_alter_eq, Ho in Ho2. simplify_eq/=.
      rewrite list_lookup_alter_ne in Ho1 by done.
      pose proof (H2 _ _ _ Ho1 Ht1). lia.
    + rewrite list_lookup_alter_ne in Ho1, Ho2 by done. eauto.
Qed.

Lemma preserves_setUpTimer c : preserves timers_ok (setUpTimer c).
Proof.
  intros s Hs. destruct (heap s !! c) as [o|] eqn:Ho.
  - rewrite (setUpTimer_eq c o) by done. by apply timers_ok_rearmed.
  - by rewrite setUpTimer_dangling.
Qed.

(** State changes that do not touch what [timers_ok] reads. *)
Lemma timers_ok_frame s s' :
  heap s' = heap s → timers s' = timers s → nextTimer s' = nextTimer s →
  timers_ok s → timers_ok s'.
Proof. intros E1 E2 E3 [H1 H2 H3]. split; rewrite ?E1, ?E2, ?E3; done. Qed.

Ltac framed :=
  let s := fresh "s" in let Hs := fresh "Hs" in
  intros s Hs; apply (timers_ok_frame s); [reflexivity..|exact Hs].

Lemma preserves_timers_closeConn ref cb : preserves timers_ok (closeConn ref cb).
Proof.
  unfold closeConn, deref, stream_end, removeAllListeners, update, next,
    clearTimeout, emit.
  pres; try apply preserves_modify; try framed;
    intros s Hs; solve [by apply timers_ok_delete | by apply timers_ok_alter].
Qed.

Lemma preserves_timers_run_final f : preserves timers_ok (run_final f).
Proof.
  unfold run_final, send, server_close, call.
  pres; apply preserves_modify; framed.
Qed.

Lemma preserves_timers_invoke cb : preserves timers_ok (invoke cb).
Proof.
  unfold invoke, task_done, call. pres; try (apply preserves_modify; framed).
  all: apply preserves_timers_run_final.
Qed.

Lemma preserves_run_ticks P n :
  (∀ cb, preserves P (invoke cb)) →
  (∀ f s, P s → P (set_tickQueue f s)) →
  preserves P (run_ticks n).
Proof.
  intros Hinv Hq. induction n as [|n IH]; simpl; [apply preserves_ret|].
  intros s Hs. unfold bind, gets. simpl.
  destruct (tickQueue s) as [|cb q]; [done|]. simpl.
  pose proof (Hinv cb _ (Hq (λ _, q) s Hs)) as H.
  destruct (invoke cb _) as [[[]|e] s']; simpl in *; by apply IH.
Qed.

Lemma preserves_drain P :
  (∀ cb, preserves P (invoke cb)) →
  (∀ f s, P s → P (set_tickQueue f s)) →
  preserves P drain.
Proof.
  intros Hinv Hq. unfold drain. apply preserves_bind; [apply preserves_gets|].
  intros n. by apply preserves_run_ticks.
Qed.

Lemma preserves_turn P l :
  preserves P (task l) → preserves P drain → preserves P (turn l).
Proof.
  intros Ht Hd s Hs. unfold turn. specialize (Ht s Hs).
  destruct (task l s) as [[[]|e] s']; simpl in *; by apply Hd.
Qed.

Lemma preserves_timers_task l : preserves timers_ok (task l).
Proof.
  destruct l as [|c p|op|c t payload|ms| |cb]; simpl.
  - unfold serve. pres.
    apply preserves_modify. intros s. apply timers_ok_serve.
  - unfold deliver. pres.
    destruct p; simpl;
      unfold on_connect, on_pingreq, on_subscribe, on_publish, on_unsubscribe,
        parallel, bus_async, bus_publish, update, send, emit.
    all: pres.
    all: try apply preserves_setUpTimer.
    all: try apply preserves_timers_closeConn.
    all: try apply preserves_timers_run_final.
    all: try (apply preserves_modify; framed).
    all: apply preserves_modify; intros s Hs; by apply timers_ok_alter.
  - unfold bus_done. pres; [apply preserves_modify; framed|].
    apply preserves_timers_invoke.
  - unfold bus_deliver, forward, send. pres. apply preserves_modify; framed.
  - unfold elapse, fire. pres; try apply preserves_timers_closeConn.
    + apply preserves_modify; framed.
    + apply preserves_modify. intros s. apply timers_ok_delete.
  - unfold listener_closed, call. pres; apply preserves_modify; framed.
  - unfold close, close_task, parallel. pres.
    all: try apply preserves_timers_closeConn.
    all: try apply preserves_timers_run_final.
    apply preserves_modify; framed.
Qed.

Lemma preserves_timers_turn l : preserves timers_ok (turn l).
Proof.
  apply preserves_turn; [apply preserves_timers_task|].
  apply preserves_drain; [apply preserves_timers_invoke|]. intros f; framed.
Qed.

Lemma timers_ok_init : timers_ok init.
Proof. split; simpl; intros *; by rewrite ?lookup_empty, ?lookup_nil. Qed.

Lemma reachable_timers_ok s : reachable s → timers_ok s.
Proof.
  induction 1 as [|s l _ IH]; [apply timers_ok_init|].
  by apply preserves_timers_turn.
Qed.

Create HintDb js discriminated.
#[local] Hint Unfold closeConn deref update stream_end removeAllListeners send
  emit setTimeout clearTimeout server_close call bus_async bus_publish next
  run_final task_done invoke parallel close_task close setUpTimer forward on_connect
  on_pingreq on_subscribe on_publish on_unsubscribe handler serve deliver
  bus_done bus_deliver listener_closed fire elapse task : js.

(** Takes a task apart down to its state changes and closes those that
    leave the property as it is. *)
Ltac pres_all :=
  autounfold with js; pres;
  try (apply preserves_modify;
       let s := fresh "s" in let Hs := fresh "Hs" in
       intros s Hs; try exact Hs).

Lemma preserves_keys_invoke cb : preserves unique_keys (invoke cb).
Proof. destruct cb; pres_all. Qed.

Lemma preserves_keys_task l : preserves unique_keys (task l).
Proof.
  destruct l as [|c p|op|c t payload|ms| |cb]; try destruct p; pres_all.
  all: try (by apply obj_delete_NoDup); by apply obj_set_NoDup.
Qed.

Lemma preserves_keys_turn l : preserves unique_keys (turn l).
Proof.
  apply preserves_turn; [apply preserves_keys_task|].
  apply preserves_drain; [apply preserves_keys_invoke|]. by intros f s Hs.
Qed.

Lemma reachable_unique_keys s : reachable s → unique_keys s.
Proof.
  induction 1 as [|s l _ IH]; [apply NoDup_nil_2|].
  by apply preserves_keys_turn.
Qed.

(** The callbacks never queue another tick, so a turn leaves the queue
    empty. *)
Lemma tickQueue_invoke cb q : preserves (λ s, tickQueue s = q) (invoke cb).
Proof. destruct cb; pres_all. Qed.

Lemma run_ticks_empties n s :
  length (tickQueue s) ≤ n → tickQueue (run_ticks n s).2 = [].
Proof.
  revert s. induction n as [|n IH]; intros s Hn; simpl.
  - destruct (tickQueue s); [done|simpl in Hn; lia].
  - unfold bind, gets. simpl. destruct (tickQueue s) as [|cb q] eqn:E; [done|].
    simpl in *.
    pose proof (tickQueue_invoke cb q (set_tickQueue (λ _, q) s) eq_refl) as H.
    destruct (invoke cb _) as [[[]|e] s']; simpl in *; apply IH; rewrite H; lia.
Qed.

Lemma drain_empties s : tickQueue (drain s).2 = [].
Proof. unfold drain, bind, gets. simpl. by apply run_ticks_empties. Qed.

Lemma turn_empties l s : tickQueue (step s l) = [].
Proof.
  unfold step, exec, turn.
  destruct (task l s) as [[[]|e] s']; simpl; apply drain_empties.
Qed.

Lemma reachable_tickQueue s : reachable s → tickQueue s = [].
Proof. induction 1; [done|apply turn_empties]. Qed.

Lemma drain_nil s : tickQueue s = [] → drain s = (Ok tt, s).
Proof. intros E. unfold drain, bind, gets. simpl. by rewrite E. Qed.

(** With an empty queue a turn is its task. *)
Lemma turn_task l s :
  tickQueue s = [] → tickQueue (task l s).2 = [] → turn l s = task l s.
Proof.
  intros E E'. unfold turn. destruct (task l s) as [[[]|e] s']; simpl in *.
  - by apply drain_nil.
  - by rewrite drain_nil.
Qed.

Lemma reachable_run ls : reachable (run init ls).
Proof.
  unfold run. generalize init, reachable_init.
  induction ls as [|l ls IH]; intros s Hs; simpl; [done|].
  apply IH. by constructor.
Qed.

(** ** The registry *)

(** C7. In every reachable state of the broker the registry has at most
    one entry under any client id, and whatever the event loop runs next
    (a packet of any kind, a bus completion, a timer, the listener's close
    event, a call of [close]) leaves it so. *)
Theorem registry_one_entry_per_id (s : state) (X : string) :
  reachable s →
  entries X (clients s) ≤ 1 ∧ ∀ l, entries X (clients (step s l)) ≤ 1.
Proof.
  intros Hs. split.
  - by apply entries_NoDup, reachable_unique_keys.
  - intros l. apply entries_NoDup.
    apply (reachable_unique_keys (step s l)). by constructor.
Qed.

Lemma registry_one_entry_per_id_witness :
  let s := run init [Accept; Packet 0 (Connect "c1" 2); Accept;
                     Packet 1 (Connect "c1" 3)] in
  entries "c1" (clients s) ≤ 1 ∧ ∀ l, entries "c1" (clients (step s l)) ≤ 1.
Proof.
  intros s. apply (registry_one_entry_per_id s "c1"). apply reachable_run.
Defined.

(** ** Liveness timers *)

Lemma pending_for_held c s x :
  timers_ok s → x ∈ pending_for c s →
  ∃ o, heap s !! c = Some o ∧ timer o = Some x.1 ∧ timers s !! x.1 = Some x.2.
Proof.
  intros Hok [Hc Hx]%list_elem_of_filter. destruct x as [h [c' d]].
  apply elem_of_map_to_list in Hx. simpl in *. subst c'.
  destruct (timers_held s Hok _ _ _ Hx) as (o & Ho & Ht). eauto.
Qed.

Lemma pending_for_le_1 c s : timers_ok s → length (pending_for c s) ≤ 1.
Proof.
  intros Hok.
  assert (Hnd : NoDup (pending_for c s)).
  { apply NoDup_filter, NoDup_map_to_list. }
  destruct (pending_for c s) as [|x [|y r]] eqn:E; simpl; [lia..|].
  assert (Hx : x ∈ pending_for c s) by (rewrite E; set_solver).
  assert (Hy : y ∈ pending_for c s) by (rewrite E; set_solver).
  destruct (pending_for_held c s x Hok Hx) as (o & Ho & Ht & Hl).
  destruct (pending_for_held c s y Hok Hy) as (o' & Ho' & Ht' & Hl').
  assert (x = y) as ->.
  { destruct x as [h v], y as [h' v']. simpl in *. congruence. }
  apply NoDup_cons in Hnd as [Hnin _]. destruct Hnin. set_solver.
Qed.

Lemma pending_for_rearmed c o s :
  timers_ok s → heap s !! c = Some o →
  pending_for c (rearmed c o s) =
    [(nextTimer s, (c, (now s + timeout_after (keepalive_ms (keepalive o)))%Z))].
Proof.
  intros Hok Ho.
  pose proof (timers_ok_rearmed c o s Ho Hok) as Hok'.
  pose proof (pending_for_le_1 c _ Hok') as Hle.
  assert (Hin : (nextTimer s, (c, (now s + timeout_after (keepalive_ms (keepalive o)))%Z))
                  ∈ pending_for c (rearmed c o s)).
  { apply list_elem_of_filter. split; [done|].
    apply elem_of_map_to_list. rewrite timers_of_rearmed. apply lookup_insert_eq. }
  destruct (pending_for c (rearmed c o s)) as [|x [|y r]]; simpl in *.
  - by apply elem_of_nil in Hin.
  - by apply list_elem_of_singleton in Hin as <-.
  - lia.
Qed.

(** C8. In every reachable state a session has at most one pending
    liveness timer, and a rearm (the [setUpTimer] that the connect and
    pingreq handlers run) cancels the timer the session held and leaves
    exactly the new one pending. *)
Theorem one_timer_per_session (s : state) (c : nat) (o : client) :
  reachable s → heap s !! c = Some o →
  length (pending_for c s) ≤ 1 ∧
  ∃ h d, setUpTimer c s = (Ok tt, rearmed c o s) ∧
         pending_for c (rearmed c o s) = [(h, (c, d))] ∧
         (heap (rearmed c o s) !! c) ≫= timer = Some h ∧
         ∀ h0, timer o = Some h0 → timers (rearmed c o s) !! h0 = None.
Proof.
  intros Hs Ho. pose proof (reachable_timers_ok s Hs) as Hok. split.
  - by apply pending_for_le_1.
  - eexists _, _. split_and!.
    + by apply setUpTimer_eq.
    + by apply pending_for_rearmed.
    + rewrite heap_of_rearmed, list_lookup_alter_eq, Ho. done.
    + intros h0 Ht. rewrite timers_of_rearmed, Ht.
      pose proof (timers_fresh s Hok _ _ _ Ho Ht).
      rewrite lookup_insert_ne by lia. apply lookup_delete_eq.
Qed.

Lemma one_timer_per_session_witness :
  let s := run init [Accept; Packet 0 (Connect "c1" 2); Packet 0 Pingreq] in
  let o := Client (Some "c1"%string) (Some 2%Z) (Some 1) false true in
  length (pending_for 0 s) ≤ 1 ∧
  ∃ h d, setUpTimer 0 s = (Ok tt, rearmed 0 o s) ∧
         pending_for 0 (rearmed 0 o s) = [(h, (0, d))] ∧
         (heap (rearmed 0 o s) !! 0) ≫= timer = Some h ∧
         ∀ h0, timer o = Some h0 → timers (rearmed 0 o s) !! h0 = None.
Proof.
  intros s o. apply (one_timer_per_session s 0 o).
  - apply reachable_run.
  - vm_compute. reflexivity.
Defined.

(** ** What the handlers leave behind *)

Lemma on_connect_eq c X K o s :
  heap s !! c = Some o → on_connect c X K s = (Ok tt, connected c X K o s).
Proof.
  intros Ho. unfold on_connect, update, send, emit, bind, modify. simpl.
  erewrite setUpTimer_eq; [done|]. simpl.
  by rewrite !list_lookup_alter_eq, Ho.
Qed.

Lemma on_pingreq_eq c o s :
  heap s !! c = Some o →
  on_pingreq c s = (Ok tt, set_sent (λ l, l ++ [(c, Pingresp)]) (rearmed c o s)).
Proof.
  intros Ho. unfold on_pingreq, send, bind, modify.
  by rewrite (setUpTimer_eq c o).
Qed.

Lemma closeConn_eq c o cb s :
  heap s !! c = Some o → closeConn (Some c) cb s = (Ok tt, closed c o cb s).
Proof.
  intros Ho. unfold closeConn, deref, bind, gets. simpl. rewrite Ho. simpl.
  unfold closed. destruct (truthy (id o)), (timer o), cb; done.
Qed.

Lemma closeConn_undefined cb s : closeConn None cb s = (Raise TypeError, s).
Proof. done. Qed.

(** A delivered packet reaches its handler exactly while the listeners are
    attached. *)
Lemma deliver_attached c o p s :
  heap s !! c = Some o → listeners o = true → deliver c p s = handler c p s.
Proof. intros Ho Hl. unfold deliver, bind, gets. simpl. by rewrite Ho, Hl. Qed.

Lemma deliver_detached c o p s :
  heap s !! c = Some o → listeners o = false → deliver c p s = (Ok tt, s).
Proof. intros Ho Hl. unfold deliver, bind, gets. simpl. by rewrite Ho, Hl. Qed.

Lemma forEach_bus_async {A} (f : A → bus_call) cb (l : list A) s :
  forEach (λ x, bus_async (f x) cb) l s = (Ok tt, bus_started (f <$> l) cb s).
Proof.
  revert s. induction l as [|x r IH]; intros s; [done|].
  cbn [forEach]. unfold bind at 1. unfold bus_async at 1.
  unfold bind, gets, modify. simpl. by rewrite IH.
Qed.

Lemma bus_started_fields bs cb s :
  let s' := bus_started bs cb s in
  clients s' = clients s ∧ heap s' = heap s ∧ listening s' = listening s ∧
  closeListeners s' = closeListeners s ∧ timers s' = timers s ∧
  nextTimer s' = nextTimer s ∧ now s' = now s ∧ tickQueue s' = tickQueue s ∧
  joins s' = joins s ∧ sent s' = sent s ∧ emitted s' = emitted s ∧
  called s' = called s ∧ nextOp s' = nextOp s + length bs ∧
  busLog s' = busLog s ++ bs.
Proof.
  revert s. induction bs as [|b r IH]; intros s; simpl.
  - rewrite app_nil_r. repeat split; lia.
  - destruct (IH (set_nextOp S (set_busPending (insert (nextOp s) cb)
                                  (set_busLog (λ l, l ++ [b]) s))))
      as (?&?&?&?&?&?&?&?&?&?&?&?&?&?).
    simpl in *. rewrite <- app_assoc in *. repeat split; try done. lia.
Qed.

Lemma bus_started_pending bs cb s op :
  busPending (bus_started bs cb s) !! op =
    if decide (nextOp s ≤ op < nextOp s + length bs) then Some cb
    else busPending s !! op.
Proof.
  revert s. induction bs as [|b r IH]; intros s; simpl.
  - rewrite decide_False by lia. done.
  - rewrite IH. simpl. repeat case_decide; try lia; try done.
    + assert (op = nextOp s) as -> by lia. by rewrite lookup_insert_eq.
    + by rewrite lookup_insert_ne by lia.
Qed.

Lemma rearmed_fields c o s :
  let s' := rearmed c o s in
  clients s' = clients s ∧ tickQueue s' = tickQueue s ∧ sent s' = sent s ∧
  emitted s' = emitted s ∧ called s' = called s ∧ joins s' = joins s ∧
  busPending s' = busPending s ∧ busLog s' = busLog s ∧ now s' = now s ∧
  listening s' = listening s ∧ closeListeners s' = closeListeners s ∧
  nextOp s' = nextOp s.
Proof. unfold rearmed. by destruct (timer o). Qed.

Lemma step_connect c o X K s :
  tickQueue s = [] → heap s !! c = Some o → listeners o = true →
  step s (Packet c (Connect X K)) = connected c X K o s.
Proof.
  intros Hq Ho Hl. unfold step, exec.
  assert (E : task (Packet c (Connect X K)) s = (Ok tt, connected c X K o s)).
  { cbn [task]. rewrite (deliver_attached c o) by done. by apply on_connect_eq. }
  rewrite turn_task, E; [done|done|]. rewrite E. simpl.
  unfold rearmed. by destruct (timer _).
Qed.

Lemma step_pingreq c o s :
  tickQueue s = [] → heap s !! c = Some o → listeners o = true →
  step s (Packet c Pingreq) = set_sent (λ l, l ++ [(c, Pingresp)]) (rearmed c o s).
Proof.
  intros Hq Ho Hl. unfold step, exec.
  assert (E : task (Packet c Pingreq) s =
              (Ok tt, set_sent (λ l, l ++ [(c, Pingresp)]) (rearmed c o s))).
  { cbn [task]. rewrite (deliver_attached c o) by done. by apply on_pingreq_eq. }
  rewrite turn_task, E; [done|done|]. rewrite E. simpl.
  unfold rearmed. by destruct (timer _).
Qed.

(** ** Connecting under an id that is taken *)

(** C6. When a connect packet names the client id [X] under which another
    session is registered, the registry entry for [X] now points to the new
    session; the old session's object is exactly as it was (its stream not
    ended, its listeners attached, its timer handle kept) and the timer it
    holds is as pending as before; nothing is sent to it and no
    disconnection is notified; every other registry entry is as it was. *)
Theorem reconnect_overwrites (s : state) (c_old c_new : nat)
    (o_old o_new : client) (X : string) (K : Z) :
  reachable s →
  obj_get X (clients s) = Some c_old →
  heap s !! c_old = Some o_old →
  heap s !! c_new = Some o_new → listeners o_new = true →
  c_new ≠ c_old →
  let s' := step s (Packet c_new (Connect X K)) in
  obj_get X (clients s') = Some c_new ∧
  heap s' !! c_old = Some o_old ∧
  (∀ h, timer o_old = Some h → timers s' !! h = timers s !! h) ∧
  (∀ Y, Y ≠ X → obj_get Y (clients s') = obj_get Y (clients s)) ∧
  emitted s' = emitted s ++ [ClientConnected c_new] ∧
  sent s' = sent s ++ [(c_new, Connack 0)].
Proof.
  intros Hs HX Hold Hnew Hl Hne s'. subst s'.
  pose proof (reachable_timers_ok s Hs) as Hok.
  rewrite (step_connect c_new o_new) by auto using reachable_tickQueue.
  unfold connected.
  match goal with |- context [rearmed ?c ?o ?s] =>
    destruct (rearmed_fields c o s) as (Ec & _ & Es & Em & _) end.
  cbn [clients heap timers emitted sent set_emitted set_sent].
  rewrite Ec, Es, Em, timers_of_rearmed, heap_of_rearmed. simpl. split_and!.
  - apply obj_get_set_eq.
  - by rewrite !list_lookup_alter_ne.
  - intros h Ht.
    pose proof (timers_fresh s Hok _ _ _ Hold Ht).
    rewrite lookup_insert_ne by lia.
    destruct (timer o_new) as [h'|] eqn:Ht'; [|done].
    rewrite lookup_delete_ne; [done|]. intros ->.
    by destruct Hne; apply (timers_inj s Hok c_new c_old o_new o_old h).
  - intros Y HY. by apply obj_get_set_ne.
  - done.
  - done.
Qed.

(** ** Subscribing *)

Lemma on_subscribe_nil c R s :
  on_subscribe c R [] s = (Ok tt, set_sent (λ l, l ++ [(c, Suback R [])]) s).
Proof. done. Qed.

Lemma on_subscribe_cons c R x r s :
  let subs := x :: r in
  on_subscribe c R subs s =
    (Ok tt,
     bus_started ((λ x, BusSubscribe (topic x) c) <$> subs)
       (ParallelCb (length (joins s)))
       (set_joins (λ l, l ++ [Join (length subs) 0
                                (FinSuback c R (map (λ _, 0%Z) subs))]) s)).
Proof.
  intros subs. unfold on_subscribe, parallel. fold subs.
  cbn [subs]. unfold bind at 1, gets at 1. unfold bind at 1, modify at 1.
  by rewrite (forEach_bus_async (λ x, BusSubscribe (topic x) c)).
Qed.

(** One bus completion that belongs to join [j]. *)
Lemma step_bus_done s op j n k c R g :
  tickQueue s = [] →
  busPending s !! op = Some (ParallelCb j) →
  joins s !! j = Some (Join n k (FinSuback c R g)) →
  step s (BusDone op) =
    (if decide (S k = n) then set_sent (λ l, l ++ [(c, Suback R g)]) else λ s, s)
      (set_joins (<[j := Join n (S k) (FinSuback c R g)]>)
         (set_busPending (delete op) s)).
Proof.
  intros Hq Hop Hj. unfold step, exec.
  assert (E : task (BusDone op) s =
    (Ok tt, (if decide (S k = n) then set_sent (λ l, l ++ [(c, Suback R g)])
             else λ s, s)
              (set_joins (<[j := Join n (S k) (FinSuback c R g)]>)
                 (set_busPending (delete op) s)))).
  { cbn [task]. unfold bus_done, bind, gets, modify. simpl. rewrite Hop. simpl.
    unfold task_done, bind, gets, modify. simpl. rewrite Hj. simpl.
    by destruct (decide (S k = n)). }
  rewrite turn_task, E; [done|done|]. rewrite E.
  by destruct (decide (S k = n)).
Qed.

Lemma run_app s l1 l2 : run s (l1 ++ l2) = run (run s l1) l2.
Proof. apply foldl_app. Qed.

(** After [k] of the [n] registrations of join [j] have completed, in any
    order, the join has counted [k], the others are still pending, and the
    acknowledgment has been written exactly if [k = n]. *)
Lemma completions s1 j n c R g order k :
  0 < n → NoDup order → length order = n → k ≤ n →
  tickQueue s1 = [] →
  joins s1 !! j = Some (Join n 0 (FinSuback c R g)) →
  (∀ op, op ∈ order → busPending s1 !! op = Some (ParallelCb j)) →
  let s' := run s1 (BusDone <$> take k order) in
  tickQueue s' = [] ∧
  joins s' !! j = Some (Join n k (FinSuback c R g)) ∧
  (∀ op, op ∈ drop k order → busPending s' !! op = Some (ParallelCb j)) ∧
  sent s' = sent s1 ++ (if decide (k = n) then [(c, Suback R g)] else []).
Proof.
  intros Hn Hnd Hlen Hk Hq Hj Hops. induction k as [|k IH]; simpl.
  - rewrite decide_False by lia. rewrite app_nil_r. by split_and!.
  - destruct IH as (IHq & IHj & IHops & IHsent); [lia|].
    destruct (lookup_lt_is_Some_2 order k) as [op Hop]; [lia|].
    rewrite (take_S_r _ _ _ Hop), fmap_app, run_app.
    set (sk := run s1 (BusDone <$> take k order)) in *. simpl.
    assert (Hpend : busPending sk !! op = Some (ParallelCb j)).
    { apply IHops. rewrite (drop_S _ _ _ Hop). apply list_elem_of_here. }
    rewrite (step_bus_done sk op j n k c R g) by done.
    rewrite decide_False in IHsent by lia. rewrite app_nil_r in IHsent.
    split_and!.
    + by destruct (decide (S k = n)).
    + destruct (decide (S k = n)); simpl;
        apply list_lookup_insert_eq; by eapply lookup_lt_Some.
    + intros op' Hop'.
      assert (op' ≠ op).
      { intros ->. rewrite <- (take_drop (S k) order) in Hnd.
        apply NoDup_app in Hnd as (_ & Hdis & _). apply (Hdis op); [|done].
        rewrite (take_S_r _ _ _ Hop). set_solver. }
      assert (busPending sk !! op' = Some (ParallelCb j)).
      { apply IHops. rewrite (drop_S _ _ _ Hop). by apply list_elem_of_further. }
      destruct (decide (S k = n)); simpl; by rewrite lookup_delete_ne.
    + destruct (decide (S k = n)); simpl; by rewrite IHsent, ?app_nil_r.
Qed.

Lemma map_zero_replicate {A} (l : list A) :
  map (λ _, 0%Z) l = replicate (length l) 0%Z.
Proof. induction l; simpl; by f_equal. Qed.

(** C1. A subscribe packet with [n] entries and request id [R] makes the
    broker start [n] bus registrations, one per entry and in the order of
    the packet; whatever the order in which the bus completes them, nothing
    is written before the last one completes, and with the last one exactly
    one acknowledgment is written, carrying [R] and [n] granted levels, all
    0. With [n = 0] the acknowledgment is written at once. *)
Theorem subscribe_acknowledged (s : state) (c : nat) (o : client) (R : Z)
    (subs : list subscription) (order : list nat) (k : nat) :
  reachable s → heap s !! c = Some o → listeners o = true →
  order ≡ₚ seq (nextOp s) (length subs) → k ≤ length subs →
  let n := length subs in
  let s1 := step s (Packet c (Subscribe R subs)) in
  busLog s1 = busLog s ++ ((λ x, BusSubscribe (topic x) c) <$> subs) ∧
  (∀ op, op ∈ order → 0 < n ∧ busPending s1 !! op = Some (ParallelCb (length (joins s)))) ∧
  sent (run s1 (BusDone <$> take k order)) =
    sent s ++ (if decide (k = n) then [(c, Suback R (replicate n 0%Z))] else []).
Proof.
  intros Hs Ho Hl Hperm Hk n s1.
  pose proof (reachable_tickQueue s Hs) as Hq.
  assert (Htask : task (Packet c (Subscribe R subs)) s = on_subscribe c R subs s).
  { cbn [task]. by rewrite (deliver_attached c o). }
  destruct subs as [|x r].
  - apply Permutation_nil_r in Hperm as ->. assert (k = 0) as -> by (simpl in Hk; lia).
    subst s1 n. unfold step, exec. rewrite turn_task; rewrite ?Htask; [|done|done].
    simpl. rewrite app_nil_r. split_and!; [done| |done].
    intros op []%elem_of_nil.
  - pose proof (on_subscribe_cons c R x r s) as Eon. cbv zeta in Eon.
    set (bs := (λ x, BusSubscribe (topic x) c) <$> (x :: r)) in *.
    set (j := length (joins s)) in *.
    set (fn := FinSuback c R (map (λ _, 0%Z) (x :: r))) in *.
    set (s0 := set_joins (λ l, l ++ [Join (length (x :: r)) 0 fn]) s) in *.
    pose proof (bus_started_fields bs (ParallelCb j) s0) as F.
    pose proof (bus_started_pending bs (ParallelCb j) s0) as Hp.
    cbv zeta in F. destruct F as (_&_&_&_&_&_&_& Fq & Fj &Fs &_&_&_& Fl).
    assert (Es1 : s1 = bus_started bs (ParallelCb j) s0).
    { subst s1. unfold step, exec.
      rewrite turn_task; rewrite ?Htask, ?Eon; [done..|]. cbn [snd].
      by rewrite Fq. }
    rewrite <- Es1 in Fq, Fj, Fs, Fl, Hp.
    assert (Hpend : ∀ op, op ∈ order →
              busPending s1 !! op = Some (ParallelCb j)).
    { intros op Hop. rewrite Hperm in Hop. apply elem_of_seq in Hop.
      rewrite Hp. subst bs. rewrite length_fmap. rewrite decide_True; [done|].
      subst s0. simpl in *. lia. }
    split_and!.
    + done.
    + intros op Hop. split; [subst n; simpl; lia|by apply Hpend].
    + destruct (completions s1 j n c R (map (λ _, 0%Z) (x :: r)) order k)
        as (_ & _ & _ & E); try done.
      * subst n. simpl. lia.
      * rewrite Hperm. apply NoDup_seq.
      * by rewrite Hperm, length_seq.
      * by rewrite Fq.
      * rewrite Fj. subst s0 j. cbn [joins set_joins].
        by rewrite lookup_app_r, Nat.sub_diag.
      * rewrite E, Fs, map_zero_replicate. done.
Qed.

(** ** The handlers and the tick queue *)

Lemma tickQueue_handler c p :
  after_connect p = true →
  ∀ q, preserves (λ s, tickQueue s = q) (handler c p).
Proof.
  intros Hp q. destruct p; try done; pres_all.
Qed.

(** ** Time *)

Lemma expired_Permutation t s :
  expired t s ≡ₚ (filter (λ x, (x.2.2 ≤ t)%Z) (map_to_list (timers s))).*1.
Proof. unfold expired. apply fmap_Permutation, merge_sort_Permutation. Qed.

Lemma elem_of_expired t s h :
  h ∈ expired t s ↔ ∃ c d, timers s !! h = Some (c, d) ∧ (d ≤ t)%Z.
Proof.
  rewrite (elem_of_Permutation_proper _ _ _ (expired_Permutation t s)).
  rewrite list_elem_of_fmap. split.
  - intros ([h' [c d]] & -> & [Hd Hin]%list_elem_of_filter).
    apply elem_of_map_to_list in Hin. eauto.
  - intros (c & d & Hh & Hd). exists (h, (c, d)). split; [done|].
    apply list_elem_of_filter. split; [done|]. by apply elem_of_map_to_list.
Qed.

Lemma NoDup_expired t s : NoDup (expired t s).
Proof.
  apply (NoDup_Permutation_proper _ _ (expired_Permutation t s)).
  eapply sublist_NoDup; [apply (NoDup_fst_map_to_list (timers s))|].
  apply fmap_sublist. apply sublist_filter.
Qed.

Lemma fire_none h s : timers s !! h = None → fire h s = (Ok tt, s).
Proof. intros E. unfold fire, bind, gets. simpl. by rewrite E. Qed.

Lemma fire_eq h c d s :
  timers_ok s → timers s !! h = Some (c, d) →
  ∃ o, heap s !! c = Some o ∧ timer o = Some h ∧
       fire h s = (Ok tt, closed c o None (set_timers (delete h) s)).
Proof.
  intros Hok Hh. destruct (timers_held s Hok _ _ _ Hh) as (o & Ho & Ht).
  exists o. split_and!; [done..|].
  unfold fire, bind, gets, modify. simpl. rewrite Hh. simpl.
  by rewrite (closeConn_eq c o).
Qed.

Lemma closed_fields c o cb s :
  let s' := closed c o cb s in
  heap s' = alter (with_listeners false) c (alter (with_stream_ended true) c (heap s)) ∧
  timers s' = (if truthy (id o) then
                 match timer o with Some h => delete h (timers s) | None => timers s end
               else timers s) ∧
  clients s' = (if truthy (id o) then obj_delete (default EmptyString (id o)) (clients s)
                else clients s) ∧
  emitted s' = emitted s ++ [ClientDisconnected c] ∧
  tickQueue s' = tickQueue s ++ (match cb with Some cb => [cb] | None => [] end) ∧
  nextTimer s' = nextTimer s ∧ now s' = now s ∧ sent s' = sent s ∧
  called s' = called s ∧ joins s' = joins s ∧ listening s' = listening s ∧
  closeListeners s' = closeListeners s ∧ busPending s' = busPending s ∧
  busLog s' = busLog s ∧ nextOp s' = nextOp s.
Proof.
  unfold closed. destruct (truthy (id o)), (timer o), cb; simpl;
    rewrite ?app_nil_r; done.
Qed.

Lemma forEach_app {A} (f : A → M unit) l1 l2 s :
  forEach f (l1 ++ l2) s =
    match forEach f l1 s with
    | (Ok _, s') => forEach f l2 s'
    | (Raise e, s') => (Raise e, s')
    end.
Proof.
  revert s. induction l1 as [|x r IH]; intros s; simpl.
  - unfold ret. by destruct (forEach f l2 s) as [[[]|] ?].
  - unfold bind. destruct (f x s) as [[[]|e] s']; [apply IH|done].
Qed.

Lemma disconnections_snoc c c' s f :
  emitted (f s) = emitted s ++ [ClientDisconnected c'] →
  disconnections c (f s) =
    disconnections c s + (if decide (c' = c) then 1 else 0).
Proof.
  intros E. unfold disconnections. rewrite E, filter_app, length_app.
  f_equal. rewrite filter_cons, filter_nil.
  destruct (decide (c' = c)) as [->|Hne].
  - by rewrite decide_True.
  - rewrite decide_False; [done|]. intros [= ?]. done.
Qed.

(** Timers that fire and do not belong to [c] leave [c] alone: its object,
    its pending timers and the number of its disconnections. *)
Lemma fires_other c hs s :
  timers_ok s →
  (∀ h d, h ∈ hs → timers s !! h ≠ Some (c, d)) →
  ∃ s', forEach fire hs s = (Ok tt, s') ∧
        timers_ok s' ∧
        heap s' !! c = heap s !! c ∧
        disconnections c s' = disconnections c s ∧
        (∀ h, h ∉ hs → timers s' !! h = timers s !! h) ∧
        (∀ h x, timers s' !! h = Some x → timers s !! h = Some x) ∧
        tickQueue s' = tickQueue s ∧ now s' = now s ∧ nextTimer s' = nextTimer s.
Proof.
  revert s. induction hs as [|h' hs IH]; intros s Hok Hnot; simpl.
  - exists s. by split_and!.
  - unfold bind.
    assert (Hstep : ∃ s1, fire h' s = (Ok tt, s1) ∧ timers_ok s1 ∧
              heap s1 !! c = heap s !! c ∧
              disconnections c s1 = disconnections c s ∧
              (∀ h, h ≠ h' → timers s1 !! h = timers s !! h) ∧
              (∀ h x, timers s1 !! h = Some x → timers s !! h = Some x) ∧
              tickQueue s1 = tickQueue s ∧ now s1 = now s ∧
              nextTimer s1 = nextTimer s).
    { destruct (timers s !! h') as [[c' d']|] eqn:Hh'.
      - destruct (fire_eq h' c' d' s Hok Hh') as (o' & Ho' & Ht' & E).
        assert (c' ≠ c).
        { intros ->. apply (Hnot h' d'); [apply list_elem_of_here|done]. }
        eexists. split; [exact E|].
        destruct (closed_fields c' o' None (set_timers (delete h') s))
          as (Fh & Ft & _ & Fe & Fq & Fn & Fnow & _).
        assert (Ft' : timers (closed c' o' None (set_timers (delete h') s)) =
                      delete h' (timers s)).
        { rewrite Ft, Ht'. simpl. destruct (truthy (id o')); [|done].
          apply delete_id, lookup_delete_eq. }
        split_and!.
        + pose proof (preserves_timers_closeConn (Some c') None
                        (set_timers (delete h') s)) as P.
          rewrite (closeConn_eq c' o') in P by done. apply P.
          by apply timers_ok_delete.
        + rewrite Fh. simpl. by rewrite !list_lookup_alter_ne.
        + rewrite (disconnections_snoc c c' (set_timers (delete h') s)
                     (closed c' o' None)) by done.
          rewrite decide_False by done. unfold disconnections. simpl. lia.
        + intros h Hne. rewrite Ft'. by rewrite lookup_delete_ne.
        + intros h x. rewrite Ft'. by intros [_ ?]%lookup_delete_Some.
        + rewrite Fq. simpl. by rewrite app_nil_r.
        + by rewrite Fnow.
        + by rewrite Fn.
      - exists s. rewrite (fire_none h' s Hh'). by split_and!. }
    destruct Hstep as (s1 & -> & Hok1 & Hh1 & Hd1 & Ht1 & Hsub1 & Hq1 & Hn1 & Hnt1).
    destruct (IH s1 Hok1) as (s' & E & Hok' & Hh & Hd & Ht & Hsub & Hq & Hn & Hnt).
    { intros h d Hin Hc. apply (Hnot h d); [by apply list_elem_of_further|].
      by apply Hsub1. }
    exists s'. rewrite E. split_and!; try congruence.
    + intros h [Hne Hnin]%not_elem_of_cons. rewrite Ht by done. by apply Ht1.
    + intros h x Hx. by apply Hsub1, Hsub.
Qed.

Lemma deadline_Some c d s :
  timers_ok s → deadline c s = Some d →
  ∃ o h, heap s !! c = Some o ∧ timer o = Some h ∧ timers s !! h = Some (c, d).
Proof.
  intros Hok. unfold deadline.
  destruct (heap s !! c) as [o|] eqn:Ho; [|done].
  destruct (timer o) as [h|] eqn:Ht; [|done].
  destruct (timers s !! h) as [[c' d']|] eqn:Hh; [|done]. intros [= <-].
  destruct (timers_held s Hok _ _ _ Hh) as (o' & Ho' & Ht').
  assert (c' = c) as -> by apply (timers_inj s Hok c' c o' o h Ho' Ho Ht' Ht).
  eauto.
Qed.

Lemma tickQueue_elapse ms q : preserves (λ s, tickQueue s = q) (elapse ms).
Proof. pres_all. Qed.

Lemma step_elapse ms s :
  tickQueue s = [] → step s (Elapse ms) = (elapse ms s).2.
Proof.
  intros Hq. unfold step, exec. rewrite turn_task; [done..|].
  by apply (tickQueue_elapse ms []).
Qed.

(** What a lapse of time does to the session [c] whose timer is due at
    [d]: closed once if the deadline is reached, untouched if not. *)
Lemma elapse_deadline s c o d ms :
  timers_ok s → tickQueue s = [] →
  heap s !! c = Some o → deadline c s = Some d →
  let s' := step s (Elapse ms) in
  ((d ≤ now s + Z.of_N ms)%Z →
     heap s' !! c = Some (with_listeners false (with_stream_ended true o)) ∧
     disconnections c s' = S (disconnections c s) ∧
     deadline c s' = None) ∧
  ((now s + Z.of_N ms < d)%Z →
     heap s' !! c = Some o ∧
     disconnections c s' = disconnections c s ∧
     deadline c s' = Some d).
Proof.
  intros Hok Hq Ho Hd s'. subst s'. rewrite step_elapse by done.
  destruct (deadline_Some c d s Hok Hd) as (o' & h & Ho' & Ht & Hh).
  assert (o' = o) as -> by congruence. clear Ho'.
  unfold elapse, bind, modify, gets. cbn [fst snd].
  set (s0 := set_now (λ t, (t + Z.of_N ms)%Z) s).
  assert (Hok0 : timers_ok s0) by (by apply (timers_ok_frame s)).
  assert (Honly : ∀ s1 h' d', timers_ok s1 → heap s1 !! c = Some o →
            timers s1 !! h' = Some (c, d') → h' = h).
  { intros s1 h' d' Hok1 Ho1 Hh1.
    destruct (timers_held s1 Hok1 _ _ _ Hh1) as (o1 & Ho1' & Ht1). congruence. }
  change (now s0) with (now s + Z.of_N ms)%Z. split.
  - intros Hdue.
    assert (Hin : h ∈ expired (now s + Z.of_N ms) s0).
    { apply elem_of_expired. eauto. }
    pose proof (NoDup_expired (now s + Z.of_N ms) s0) as Hnd.
    destruct (list_elem_of_split _ _ Hin) as (l1 & l2 & El). rewrite El in *.
    apply NoDup_app in Hnd as (_ & Hl1 & [Hl2 _]%NoDup_cons).
    rewrite forEach_app.
    destruct (fires_other c l1 s0 Hok0) as (s1 & -> & Hok1 & Hh1 & Hd1 & Ht1 & _).
    { intros h' d' Hin' Hc. assert (h' = h) as -> by by eapply (Honly s0).
      apply (Hl1 h); [done|]. apply list_elem_of_here. }
    assert (Hh1' : timers s1 !! h = Some (c, d)).
    { rewrite Ht1; [done|]. intros Hc. apply (Hl1 h Hc), list_elem_of_here. }
    cbn [forEach]. unfold bind.
    destruct (fire_eq h c d s1 Hok1 Hh1') as (o1 & Ho1 & Ht1' & ->).
    assert (o1 = o) as -> by (rewrite Hh1 in Ho1; simpl in Ho1; congruence).
    set (s2 := closed c o None (set_timers (delete h) s1)).
    destruct (closed_fields c o None (set_timers (delete h) s1))
      as (Fh & Ft & _ & Fe & _). fold s2 in Fh, Ft, Fe.
    assert (Hok2 : timers_ok s2).
    { pose proof (preserves_timers_closeConn (Some c) None
                    (set_timers (delete h) s1)) as P.
      rewrite (closeConn_eq c o) in P by done. apply P.
      by apply timers_ok_delete. }
    assert (Ft2 : timers s2 = delete h (timers s1)).
    { rewrite Ft, Ht. simpl. destruct (truthy (id o)); [|done].
      apply delete_id, lookup_delete_eq. }
    destruct (fires_other c l2 s2 Hok2) as (s3 & -> & Hok3 & Hh3 & Hd3 & Ht3 & _).
    { intros h' d' Hin' Hc. rewrite Ft2 in Hc.
      apply lookup_delete_Some in Hc as [Hne Hc].
      destruct Hne. symmetry. apply (Honly s1 h' d' Hok1); [|done].
      by rewrite Hh1. }
    cbn [snd]. split_and!.
    + rewrite Hh3, Fh. simpl.
      rewrite !list_lookup_alter_eq, Ho1. done.
    + rewrite Hd3. unfold s2 in *.
      rewrite (disconnections_snoc c c (set_timers (delete h) s1)
                 (closed c o None)) by done.
      rewrite decide_True by done.
      change (disconnections c (set_timers (delete h) s1))
        with (disconnections c s1).
      rewrite Hd1. change (disconnections c s0) with (disconnections c s). lia.
    + unfold deadline. rewrite Hh3, Fh. simpl.
      rewrite !list_lookup_alter_eq, Ho1. simpl. rewrite Ht.
      rewrite Ht3 by done. rewrite Ft2. by rewrite lookup_delete_eq.
  - intros Hlate.
    destruct (fires_other c (expired (now s + Z.of_N ms) s0) s0 Hok0)
      as (s1 & -> & Hok1 & Hh1 & Hd1 & Ht1 & _).
    { intros h' d' [c' [d'' [Hh' Hle]]]%elem_of_expired Hc.
      assert (h' = h) as -> by by eapply (Honly s0).
      assert (d'' = d) as -> by (simpl in *; congruence). lia. }
    cbn [snd]. split_and!.
    + by rewrite Hh1.
    + by rewrite Hd1.
    + unfold deadline. rewrite Hh1. simpl. rewrite Ho, Ht.
      rewrite Ht1; [simpl; by rewrite Hh|].
      intros [c' [d' [Hh' Hle]]]%elem_of_expired.
      assert (d' = d) as -> by (simpl in *; congruence). lia.
Qed.

Lemma step_packet c o p s :
  tickQueue s = [] → heap s !! c = Some o → listeners o = true →
  after_connect p = true →
  step s (Packet c p) = (handler c p s).2.
Proof.
  intros Hq Ho Hl Hp.
  assert (Ht : task (Packet c p) s = handler c p s).
  { cbn [task]. by apply (deliver_attached c o). }
  unfold step, exec. rewrite turn_task; rewrite ?Ht; [done..|].
  by apply (tickQueue_handler c p Hp []).
Qed.

Lemma handler_keeps_timers c p T H :
  after_connect p = true → rearms p = false →
  preserves (λ s, timers s = T ∧ heap s = H) (handler c p).
Proof. intros Hp Hr. destruct p; try done; pres_all. Qed.

Lemma deadline_rearmed c o s :
  heap s !! c = Some o →
  deadline c (rearmed c o s) =
    Some (now s + timeout_after (keepalive_ms (keepalive o)))%Z.
Proof.
  intros Ho. unfold deadline.
  rewrite heap_of_rearmed, list_lookup_alter_eq, Ho, timers_of_rearmed.
  simpl. by rewrite lookup_insert_eq.
Qed.

Lemma timeout_after_keepalive K :
  (1 ≤ K ≤ 65535)%Z → timeout_after (keepalive_ms (Some K)) = (K * 1250)%Z.
Proof.
  intros HK. unfold timeout_after, keepalive_ms, TIMEOUT_MAX. simpl.
  replace (K * 1000 * 5)%Z with ((K * 1250) * 4)%Z by lia.
  rewrite Z.div_mul by lia. rewrite bool_decide_eq_true_2; [done|lia].
Qed.

Lemma deadline_connected c o X K s :
  heap s !! c = Some o →
  deadline c (connected c X K o s) =
    Some (now s + timeout_after (keepalive_ms (Some K)))%Z.
Proof.
  intros Ho. unfold connected.
  match goal with |- deadline c (set_emitted _ (set_sent _ (rearmed c ?o' ?s1))) = _ =>
    change (deadline c (rearmed c o' s1) =
            Some (now s1 + timeout_after (keepalive_ms (keepalive o')))%Z);
    apply deadline_rearmed end.
  simpl. by rewrite !list_lookup_alter_eq, Ho.
Qed.

(** C2, amended. For a connected session with keepalive interval [K]
    seconds, connect and pingreq are the packets that rearm the liveness
    timer, to 1250 ms per second of keepalive from the moment they are
    handled; publish, subscribe and unsubscribe leave the pending timer and
    its deadline as they are; and a lapse of time tears the session down
    (one disconnection notified, its stream ended) exactly if it reaches the
    deadline of the pending timer. *)
Theorem timer_rearmed_by_connect_and_pingreq (s : state) (c : nat)
    (o : client) (K : Z) :
  reachable s → heap s !! c = Some o → listeners o = true →
  keepalive o = Some K → (1 ≤ K ≤ 65535)%Z →
  (∀ X K', (1 ≤ K' ≤ 65535)%Z →
     deadline c (step s (Packet c (Connect X K'))) = Some (now s + K' * 1250)%Z) ∧
  deadline c (step s (Packet c Pingreq)) = Some (now s + K * 1250)%Z ∧
  (∀ p, after_connect p = true → rearms p = false →
     timers (step s (Packet c p)) = timers s ∧
     deadline c (step s (Packet c p)) = deadline c s) ∧
  (∀ d ms, deadline c s = Some d →
     let s' := step s (Elapse ms) in
     ((d ≤ now s + Z.of_N ms)%Z →
        disconnections c s' = S (disconnections c s) ∧
        stream_ended <$> heap s' !! c = Some true ∧
        deadline c s' = None) ∧
     ((now s + Z.of_N ms < d)%Z →
        disconnections c s' = disconnections c s ∧
        heap s' !! c = Some o ∧
        deadline c s' = Some d)).
Proof.
  intros Hs Ho Hl HK HKr.
  pose proof (reachable_tickQueue s Hs) as Hq.
  pose proof (reachable_timers_ok s Hs) as Hok.
  split_and!.
  - intros X K' HK'. rewrite (step_connect c o) by done.
    rewrite deadline_connected by done. by rewrite timeout_after_keepalive.
  - rewrite (step_pingreq c o) by done.
    change (deadline c (set_sent ?f (rearmed c o s)))
      with (deadline c (rearmed c o s)).
    rewrite deadline_rearmed by done. by rewrite HK, timeout_after_keepalive.
  - intros p Hp Hr. rewrite (step_packet c o) by done.
    destruct (handler_keeps_timers c p (timers s) (heap s) Hp Hr s) as [Et Eh];
      [done|].
    split; [done|]. unfold deadline. by rewrite Et, Eh.
  - intros d ms Hd s'.
    destruct (elapse_deadline s c o d ms Hok Hq Ho Hd) as [Hdue Hlate]. split.
    + intros Hle. destruct (Hdue Hle) as (Hh & Hn & Hdl). fold s' in Hh, Hn, Hdl.
      by rewrite Hh.
    + intros Hlt. destruct (Hlate Hlt) as (Hh & Hn & Hdl). done.
Qed.

(** C5, amended. A session that connects with keepalive 0 has its timer
    armed all the same, with the shortest delay there is, 1 ms; if it stays
    idle, the first lapse of time of 1 ms or more tears it down. *)
Theorem keepalive_zero_expires (s : state) (c : nat) (o : client)
    (X : string) (ms : N) :
  reachable s → heap s !! c = Some o → listeners o = true → (1 ≤ ms)%N →
  let s1 := step s (Packet c (Connect X 0)) in
  let s2 := step s1 (Elapse ms) in
  deadline c s1 = Some (now s + 1)%Z ∧
  disconnections c s2 = S (disconnections c s1) ∧
  stream_ended <$> heap s2 !! c = Some true.
Proof.
  intros Hs Ho Hl Hms s1 s2.
  assert (Hs1 : reachable s1) by by constructor.
  pose proof (reachable_tickQueue s Hs) as Hq.
  assert (Hd : deadline c s1 = Some (now s + 1)%Z).
  { subst s1. rewrite (step_connect c o) by done.
    by rewrite deadline_connected. }
  assert (Hnow : now s1 = now s).
  { subst s1. rewrite (step_connect c o) by done. unfold connected.
    cbn [now set_emitted set_sent].
    match goal with |- context [rearmed ?c ?o ?s] =>
      destruct (rearmed_fields c o s) as (_&_&_&_&_&_&_&_& -> &_) end.
    done. }
  split; [done|].
  destruct (deadline_Some c _ s1 (reachable_timers_ok _ Hs1) Hd)
    as (o1 & h & Ho1 & _ & _).
  destruct (elapse_deadline s1 c o1 _ ms (reachable_timers_ok _ Hs1)
              (reachable_tickQueue _ Hs1) Ho1 Hd) as [Hdue _].
  destruct Hdue as (Hh & Hn & _); [lia|]. fold s2 in Hh, Hn.
  by rewrite Hh.
Qed.

(** ** Shutdown *)

Lemma close_eq callback s :
  close callback s =
    parallel close_task (obj_keys (clients s)) (FinServerClose callback) s.
Proof. done. Qed.









Lemma reachable_inv s :
  reachable s → tickQueue s = [] ∧ unique_keys s ∧ timers_ok s.
Proof.
  intros Hs. split_and!;
    [by apply reachable_tickQueue|by apply reachable_unique_keys|
     by apply reachable_timers_ok].
Qed.


(** ** Closing one connection *)

(** X2. What [closeConn] does to a session whose id is truthy (assigned and
    not the empty string) and to one whose id is not: the timer and the
    registry entry under the id are gone, or nothing of the registry and
    the timers is touched; in both cases the stream is ended, the
    listeners are detached, the callback is queued for the next tick and
    not run, and the disconnection is notified. A second call changes
    nothing in the registry, the timers and the session. *)
Lemma closeConn_effects (s : state) (c : nat) (o : client) (cb : option callback) :
  heap s !! c = Some o →
  let s' := (closeConn (Some c) cb s).2 in
  let s'' := (closeConn (Some c) None s').2 in
  (closeConn (Some c) cb s).1 = Ok tt ∧
  (truthy (id o) = true →
     (∀ h, timer o = Some h → timers s' !! h = None) ∧
     (∀ k, id o = Some k → obj_get k (clients s') = None)) ∧
  (truthy (id o) = false → timers s' = timers s ∧ clients s' = clients s) ∧
  heap s' !! c = Some (with_listeners false (with_stream_ended true o)) ∧
  tickQueue s' = tickQueue s ++ (match cb with Some cb => [cb] | None => [] end) ∧
  called s' = called s ∧
  emitted s' = emitted s ++ [ClientDisconnected c] ∧
  clients s'' = clients s' ∧ timers s'' = timers s' ∧ heap s'' = heap s'.
Proof.
  intros Ho s' s''. subst s''. subst s'. rewrite (closeConn_eq c o) by done.
  cbn [fst snd].
  destruct (closed_fields c o cb s)
    as (Fh & Ft & Fc & Fe & Fq & _ & _ & _ & Fca & _).
  assert (Ho' : heap (closed c o cb s) !! c =
                Some (with_listeners false (with_stream_ended true o))).
  { rewrite Fh. by rewrite !list_lookup_alter_eq, Ho. }
  rewrite (closeConn_eq c _ None _ Ho'). cbn [snd].
  destruct (closed_fields c (with_listeners false (with_stream_ended true o))
              None (closed c o cb s)) as (Gh & Gt & Gc & _).
  cbn [id timer with_listeners with_stream_ended] in Gt, Gc.
  split_and!; try done.
  - intros Hid. rewrite Ft, Fc, Hid. split.
    + intros h ->. apply lookup_delete_eq.
    + intros k ->. apply obj_get_delete_eq.
  - intros Hid. by rewrite Ft, Fc, Hid.
  - rewrite Gc, Fc. destruct (truthy (id o)); [|done].
    generalize (default EmptyString (id o)) (clients s). intros k l.
    induction l as [|[k' v] l IH]; simpl; [done|].
    destruct (decide (k' = k)); simpl; [done|].
    rewrite decide_False by done. by f_equal.
  - rewrite Gt, Ft. destruct (truthy (id o)), (timer o); try done.
    apply delete_id, lookup_delete_eq.
  - rewrite Gh, Fh. rewrite !list_alter_alter_eq. by apply list_alter_ext.
Qed.

(** ** A callback that is never called *)

Section never_due.
Context (f : nat).

Lemma calls_back_snoc s jn j :
  fin jn ≠ FinServerClose (Some f) →
  calls_back f (set_joins (λ l, l ++ [jn]) s) j → calls_back f s j.
Proof.
  intros Hjn (jn' & Hj & Hf). simpl in Hj.
  apply lookup_app_Some in Hj as [Hj|[_ Hj]]; [by exists jn'|].
  apply list_lookup_singleton_Some in Hj as [_ <-]. done.
Qed.

Lemma calls_back_insert s j0 jn0 t k j :
  joins s !! j0 = Some jn0 →
  calls_back f (set_joins (<[j0 := Join t k (fin jn0)]>) s) j → calls_back f s j.
Proof.
  intros H0 (jn' & Hj & Hf). simpl in Hj.
  apply list_lookup_insert_Some in Hj as [(-> & <- & _)|[_ Hj]].
  - by exists jn0.
  - by exists jn'.
Qed.

Lemma harmless_mono s s' cb :
  (∀ j, calls_back f s' j → calls_back f s j) →
  harmless f s cb → harmless f s' cb.
Proof. intros H. destruct cb; simpl; [done|]. intros Hn Hc. by apply Hn, H. Qed.

Lemma never_due_joins s g :
  (∀ j, calls_back f (set_joins g s) j → calls_back f s j) →
  never_due f s → never_due f (set_joins g s).
Proof.
  intros H (H1 & H2 & H3 & H4). split_and!; [done..| |].
  - intros cb Hin. eapply harmless_mono; [exact H|by apply H3].
  - intros op cb Hin. eapply harmless_mono; [exact H|by eapply H4].
Qed.

Lemma never_due_called s g :
  g ≠ f → never_due f s → never_due f (set_called (λ l, l ++ [g]) s).
Proof.
  intros Hg (H1 & H2 & H3 & H4). split_and!; [|done..].
  simpl. rewrite elem_of_app, list_elem_of_singleton. by intros [?|?].
Qed.

Lemma never_due_hold s g :
  g ≠ f → never_due f s → never_due f (set_closeListeners (λ l, l ++ [g]) s).
Proof.
  intros Hg (H1 & H2 & H3 & H4). split_and!; [done| |done..].
  simpl. rewrite elem_of_app, list_elem_of_singleton. by intros [?|?].
Qed.

Lemma never_due_release s :
  never_due f s → never_due f (set_closeListeners (λ _, []) s).
Proof.
  intros (H1 & H2 & H3 & H4). split_and!; [done| |done..].
  simpl. apply not_elem_of_nil.
Qed.

Lemma never_due_tick s cb :
  harmless f s cb → never_due f s →
  never_due f (set_tickQueue (λ q, q ++ [cb]) s).
Proof.
  intros Hcb (H1 & H2 & H3 & H4). split_and!; [done..| |done].
  intros cb'. simpl. rewrite elem_of_app, list_elem_of_singleton.
  intros [?| ->]; [by apply H3|done].
Qed.

Lemma never_due_pop s cb q :
  tickQueue s = cb :: q → never_due f s →
  harmless f s cb ∧ never_due f (set_tickQueue (λ _, q) s).
Proof.
  intros Hq (H1 & H2 & H3 & H4). split.
  - apply H3. rewrite Hq. apply list_elem_of_here.
  - split_and!; [done..| |done]. intros cb' Hin. apply H3. rewrite Hq.
    by apply list_elem_of_further.
Qed.

Lemma never_due_pending s op cb :
  harmless f s cb → never_due f s →
  never_due f (set_busPending (insert op cb) s).
Proof.
  intros Hcb (H1 & H2 & H3 & H4). split_and!; [done..|].
  intros op' cb'. simpl.
  intros [[-> <-]|[_ Hin]]%lookup_insert_Some; [done|by eapply H4].
Qed.

Lemma never_due_done s op :
  never_due f s → never_due f (set_busPending (delete op) s).
Proof.
  intros (H1 & H2 & H3 & H4). split_and!; [done..|].
  intros op' cb'. simpl. intros [_ Hin]%lookup_delete_Some. by eapply H4.
Qed.

Lemma preserves_never_due_run_final fn :
  fn ≠ FinServerClose (Some f) → preserves (never_due f) (run_final fn).
Proof.
  intros Hfn. destruct fn as [| |[g|]]; pres_all.
  - apply never_due_hold; [congruence|done].
  - apply never_due_called; [congruence|done].
Qed.

Lemma never_due_invoke cb s :
  never_due f s → harmless f s cb → never_due f (invoke cb s).2.
Proof.
  intros Hs Hcb. destruct cb as [g|j]; simpl in Hcb.
  - by apply never_due_called.
  - cbn [invoke]. unfold task_done, bind, gets, modify. cbn [fst snd].
    destruct (joins s !! j) as [jn|] eqn:Hj; [|done]. cbn [fst snd].
    assert (Hfin : fin jn ≠ FinServerClose (Some f)).
    { intros Hf. apply Hcb. by exists jn. }
    assert (Hs' : never_due f
              (set_joins (<[j := Join (total jn) (S (completed jn)) (fin jn)]>) s)).
    { apply never_due_joins; [|done]. intros j'. by apply calls_back_insert. }
    destruct (decide (S (completed jn) = total jn)); [|done].
    by apply preserves_never_due_run_final.
Qed.

(** What a task needs while it hands out the callback of join [j]. *)
Definition handing_out (j : nat) (s : state) : Prop :=
  never_due f s ∧ ¬ calls_back f s j.

Lemma preserves_handing_out_closeConn j ref :
  preserves (handing_out j) (closeConn ref (Some (ParallelCb j))).
Proof.
  pres_all. destruct Hs as [Hs Hj]. split; [|done]. by apply never_due_tick.
Qed.

Lemma preserves_never_due_closeConn ref :
  preserves (never_due f) (closeConn ref None).
Proof. pres_all. Qed.

Lemma preserves_handing_out_bus_async j b :
  preserves (handing_out j) (bus_async b (ParallelCb j)).
Proof.
  pres_all. destruct Hs as [Hs Hj]. split; [|done]. by apply never_due_pending.
Qed.

Lemma never_due_parallel {T} (run_task : T → callback → M unit) tasks fn s :
  fn ≠ FinServerClose (Some f) →
  (∀ j t, preserves (handing_out j) (run_task t (ParallelCb j))) →
  never_due f s → never_due f (parallel run_task tasks fn s).2.
Proof.
  intros Hfn Htask Hs. unfold parallel. destruct tasks as [|t r].
  - by apply preserves_never_due_run_final.
  - unfold bind at 1, gets at 1. unfold bind at 1, modify at 1. cbn [fst snd].
    set (s0 := set_joins _ s).
    assert (H0 : handing_out (length (joins s)) s0).
    { split.
      - apply never_due_joins; [|done]. intros j. by apply calls_back_snoc.
      - intros (jn & Hj & Hf). simpl in Hj.
        rewrite lookup_app_r, Nat.sub_diag in Hj by done.
        simpl in Hj. by simplify_eq. }
    by apply (preserves_forEach (handing_out (length (joins s)))
                (λ t, run_task t (ParallelCb (length (joins s)))) (t :: r)
                (Htask _) s0 H0).
Qed.

Lemma never_due_task l s :
  l ≠ HostClose (Some f) → never_due f s → never_due f (task l s).2.
Proof.
  intros Hl Hs. destruct l as [|c p|op|c t payload|ms| |cb]; cbn [task].
  - refine ((_ : preserves (never_due f) _) s Hs); pres_all.
  - unfold deliver, bind, gets. cbn [fst snd].
    destruct (heap s !! c) as [o|]; [|done]. destruct (listeners o); [|done].
    destruct p; cbn [handler].
    + refine ((_ : preserves (never_due f) _) s Hs); pres_all.
    + refine ((_ : preserves (never_due f) _) s Hs); pres_all.
    + apply never_due_parallel; [done| |done].
      intros j x. apply preserves_handing_out_bus_async.
    + refine ((_ : preserves (never_due f) _) s Hs); pres_all.
    + apply never_due_parallel; [done| |done].
      intros j x. apply preserves_handing_out_bus_async.
    + by apply preserves_never_due_closeConn.
    + by apply preserves_never_due_closeConn.
  - unfold bus_done, bind, gets, modify. cbn [fst snd].
    destruct (busPending s !! op) as [cb|] eqn:Hop; [|done]. cbn [fst snd].
    apply never_due_invoke; [by apply never_due_done|].
    destruct Hs as (_ & _ & _ & H4). by apply (H4 op).
  - refine ((_ : preserves (never_due f) _) s Hs); pres_all.
  - refine ((_ : preserves (never_due f) _) s Hs).
    unfold elapse, fire. pres; try apply preserves_never_due_closeConn.
    all: by apply preserves_modify.
  - unfold listener_closed, bind, gets, modify. cbn [fst snd].
    destruct (listening s); [done|]. cbn [fst snd].
    assert (H : ∀ fs s1, never_due f s1 → f ∉ fs →
              never_due f (forEach (λ g, call (Some g)) fs s1).2).
    { induction fs as [|g fs IH]; intros s1 H1 Hnin; [done|].
      apply not_elem_of_cons in Hnin as [Hne Hnin].
      cbn [forEach]. unfold bind.
      change (call (Some g) s1) with (Ok tt, set_called (λ l, l ++ [g]) s1).
      cbn iota. apply IH; [|done]. by apply never_due_called. }
    apply H; [by apply never_due_release|]. by destruct Hs as (_ & ? & _).
  - unfold close, bind, gets. cbn [fst snd].
    apply never_due_parallel; [congruence| |done].
    intros j k. unfold close_task. apply preserves_bind; [apply preserves_gets|].
    intros ref. apply preserves_handing_out_closeConn.
Qed.

Lemma never_due_run_ticks n s :
  never_due f s → never_due f (run_ticks n s).2.
Proof.
  revert s. induction n as [|n IH]; intros s Hs; [done|].
  cbn [run_ticks]. unfold bind at 1, gets at 1. cbn [fst snd].
  destruct (tickQueue s) as [|cb q] eqn:Hq; [done|].
  unfold bind at 1, modify at 1.
  destruct (never_due_pop s cb q Hq Hs) as [Hcb Hs'].
  assert (Hcb' : harmless f (set_tickQueue (λ _, q) s) cb) by done.
  pose proof (never_due_invoke cb _ Hs' Hcb') as H.
  destruct (invoke cb _) as [[[]|e] s1]; cbn [fst snd] in *; by apply IH.
Qed.

(** Once nothing leads to a call of [f], nothing ever will, unless the
    host hands [f] to [close] again. *)
Lemma never_due_run ls s :
  HostClose (Some f) ∉ ls → never_due f s → never_due f (run s ls).
Proof.
  revert s. induction ls as [|l ls IH]; intros s Hls Hs; [done|].
  apply not_elem_of_cons in Hls as [Hl Hls]. simpl. apply IH; [done|].
  unfold step, exec, turn.
  pose proof (never_due_task l s (not_eq_sym Hl) Hs) as H.
  destruct (task l s) as [[[]|e] s1]; cbn [fst snd] in *;
    unfold drain, bind, gets; cbn [fst snd]; by apply never_due_run_ticks.
Qed.
End never_due.

(** ** The claims at concrete runs *)

Lemma subscribe_acknowledged_witness :
  let s1 := step one_session
              (Packet 0 (Subscribe 7 [Sub "a/b" 0; Sub "c/d" 1])) in
  busLog s1 = busLog one_session ++ [BusSubscribe "a/b" 0; BusSubscribe "c/d" 0] ∧
  (∀ op, op ∈ [1; 0] →
     0 < 2 ∧ busPending s1 !! op = Some (ParallelCb (length (joins one_session)))) ∧
  sent (run s1 (BusDone <$> take 2 [1; 0])) =
    sent one_session ++ [(0, Suback 7 [0; 0]%Z)].
Proof.
  apply (subscribe_acknowledged one_session 0
           (Client (Some "c1"%string) (Some 2%Z) (Some 0) false true) 7
           [Sub "a/b" 0; Sub "c/d" 1] [1; 0] 2).
  - apply reachable_run.
  - vm_compute. reflexivity.
  - reflexivity.
  - vm_compute. apply perm_swap.
  - simpl. lia.
Defined.

(** The counterexample to C2 as stated: a client with a keepalive of 1
    second publishes 1000 ms after it connected; the deadline stays at
    1250 ms, and 250 ms later the session is torn down, although an
    activity arrived within 1.25 seconds. *)
Lemma publish_does_not_rearm :
  now silent_for_a_second = 1000%Z ∧
  deadline 0 silent_for_a_second = Some 1250%Z ∧
  deadline 0 (step silent_for_a_second (Packet 0 (Publish "t" "hello"))) =
    Some 1250%Z ∧
  disconnections 0
    (run silent_for_a_second [Packet 0 (Publish "t" "hello")]) = 0 ∧
  disconnections 0
    (run silent_for_a_second [Packet 0 (Publish "t" "hello"); Elapse 250]) = 1.
Proof. vm_compute. by split_and!. Qed.

Lemma timer_rearmed_by_connect_and_pingreq_witness :
  deadline 0 (step one_session (Packet 0 Pingreq)) =
    Some (now one_session + 2 * 1250)%Z.
Proof.
  refine (proj1 (proj2 (timer_rearmed_by_connect_and_pingreq one_session 0
           (Client (Some "c1"%string) (Some 2%Z) (Some 0) false true) 2
           _ _ _ _ _))).
  - apply reachable_run.
  - vm_compute. reflexivity.
  - reflexivity.
  - reflexivity.
  - lia.
Defined.

(** The counterexample to C5 as stated: a client connects with keepalive
    0 and stays idle; one millisecond later its timer has expired and the
    session is torn down. *)
Lemma keepalive_zero_torn_down :
  deadline 0 zero_keepalive = Some 1%Z ∧
  disconnections 0 zero_keepalive = 0 ∧
  disconnections 0 (step zero_keepalive (Elapse 1)) = 1 ∧
  heap (step zero_keepalive (Elapse 1)) !! 0 =
    Some (Client (Some "c1"%string) (Some 0%Z) (Some 0) true false) ∧
  clients (step zero_keepalive (Elapse 1)) = [].
Proof. vm_compute. by split_and!. Qed.

Lemma keepalive_zero_expires_witness :
  let s1 := step one_pending (Packet 0 (Connect "c1" 0)) in
  let s2 := step s1 (Elapse 1) in
  deadline 0 s1 = Some (now one_pending + 1)%Z ∧
  disconnections 0 s2 = S (disconnections 0 s1) ∧
  stream_ended <$> heap s2 !! 0 = Some true.
Proof.
  apply (keepalive_zero_expires one_pending 0 fresh_client "c1" 1).
  - apply reachable_run.
  - vm_compute. reflexivity.
  - reflexivity.
  - lia.
Defined.

Lemma reconnect_overwrites_witness :
  let s' := step one_session_one_pending (Packet 1 (Connect "c1" 3)) in
  obj_get "c1" (clients s') = Some 1 ∧
  heap s' !! 0 = Some (Client (Some "c1"%string) (Some 2%Z) (Some 0) false true) ∧
  (∀ h, Some 0 = Some h → timers s' !! h = timers one_session_one_pending !! h) ∧
  (∀ Y, Y ≠ "c1"%string →
     obj_get Y (clients s') = obj_get Y (clients one_session_one_pending)) ∧
  emitted s' = emitted one_session_one_pending ++ [ClientConnected 1] ∧
  sent s' = sent one_session_one_pending ++ [(1, Connack 0)].
Proof.
  apply (reconnect_overwrites one_session_one_pending 0 1
           (Client (Some "c1"%string) (Some 2%Z) (Some 0) false true)
           fresh_client "c1" 3).
  - apply reachable_run.
  - vm_compute. reflexivity.
  - vm_compute. reflexivity.
  - vm_compute. reflexivity.
  - reflexivity.
  - lia.
Defined.

(** C3 at the failing input. A connection that sent connect as "a" and
    then as "b" is filed under both keys while its id is "b". [close]
    tears it down for the key "a", which deletes the entry "b"; the task
    for the key "b" then finds no client and reading its id throws. The
    TypeError leaves [close]. The callback has not been called, it was not
    handed to the listener, which is still bound, and the join stays at one
    task of two with nothing queued or pending; whatever the event loop
    runs afterwards, short of another [close] with the same callback, the
    callback is never called. *)
Theorem close_after_rename :
  clients renamed = [("a"%string, 0); ("b"%string, 0)] ∧
  (close (Some 9) renamed).1 = Raise TypeError ∧
  let s' := step renamed (HostClose (Some 9)) in
  called s' = [] ∧ closeListeners s' = [] ∧ listening s' = true ∧
  joins s' = [Join 2 1 (FinServerClose (Some 9))] ∧
  tickQueue s' = [] ∧ busPending s' = ∅ ∧
  clients s' = [("a"%string, 0)] ∧
  ∀ ls, HostClose (Some 9) ∉ ls → 9 ∉ called (run s' ls).
Proof.
  split; [by vm_compute|]. split; [by vm_compute|]. intros s'.
  assert (H : called s' = [] ∧ closeListeners s' = [] ∧ listening s' = true ∧
              joins s' = [Join 2 1 (FinServerClose (Some 9))] ∧
              tickQueue s' = [] ∧ busPending s' = ∅ ∧
              clients s' = [("a"%string, 0)]).
  { vm_compute. by split_and!. }
  destruct H as (Hca & Hcl & Hup & Hj & Hq & Hp & Hc). split_and!; try done.
  intros ls Hls.
  assert (Hnd : never_due 9 s').
  { unfold never_due. rewrite Hca, Hcl, Hq, Hp. split_and!.
    - apply not_elem_of_nil.
    - apply not_elem_of_nil.
    - by intros cb Hin%elem_of_nil.
    - intros op cb Hin. by rewrite lookup_empty in Hin. }
  by destruct (never_due_run 9 ls s' Hls Hnd) as (Hnot & _).
Qed.

(** C4 at the failing input. A client whose connect packet carried the
    empty string as client id has an id, but [if (client.id)] is false for
    it: when it disconnects, [closeConn] ends the stream and notifies the
    disconnection and leaves the registry entry and the pending timer in
    place; the timer fires later and the disconnection is notified again. *)
Theorem closeConn_empty_id :
  heap empty_id !! 0 = Some (Client (Some EmptyString) (Some 2%Z) (Some 0) false true) ∧
  let s' := step empty_id (Packet 0 Disconnect) in
  heap s' !! 0 = Some (Client (Some EmptyString) (Some 2%Z) (Some 0) true false) ∧
  clients s' = [(EmptyString, 0)] ∧
  timers s' !! 0 = Some (0, 2500%Z) ∧
  emitted s' = [ClientConnected 0; ClientDisconnected 0] ∧
  emitted (step s' (Elapse 2500)) =
    [ClientConnected 0; ClientDisconnected 0; ClientDisconnected 0] ∧
  clients (step s' (Elapse 2500)) = [(EmptyString, 0)].
Proof. vm_compute. by split_and!. Qed.

(** A session that changed its id stays in the registry under the first
    one after [closeConn]. *)
Lemma closeConn_after_rename :
  clients (step renamed (Packet 0 Disconnect)) = [("a"%string, 0)] ∧
  heap (step renamed (Packet 0 Disconnect)) !! 0 =
    Some (Client (Some "b"%string) (Some 2%Z) (Some 1) true false).
Proof. vm_compute. by split_and!. Qed.





(** * Further properties of [lib/server.js] *)

Lemma closeConn_effects_witness :
  let o := Client (Some "c1"%string) (Some 2%Z) (Some 0) false true in
  let s' := (closeConn (Some 0) (Some (HostFn 3)) one_session).2 in
  let s'' := (closeConn (Some 0) None s').2 in
  (closeConn (Some 0) (Some (HostFn 3)) one_session).1 = Ok tt ∧
  (truthy (id o) = true →
     (∀ h, timer o = Some h → timers s' !! h = None) ∧
     (∀ k, id o = Some k → obj_get k (clients s') = None)) ∧
  (truthy (id o) = false →
     timers s' = timers one_session ∧ clients s' = clients one_session) ∧
  heap s' !! 0 = Some (with_listeners false (with_stream_ended true o)) ∧
  tickQueue s' = tickQueue one_session ++ [HostFn 3] ∧
  called s' = called one_session ∧
  emitted s' = emitted one_session ++ [ClientDisconnected 0] ∧
  clients s'' = clients s' ∧ timers s'' = timers s' ∧ heap s'' = heap s'.
Proof.
  apply (closeConn_effects one_session 0
           (Client (Some "c1"%string) (Some 2%Z) (Some 0) false true)
           (Some (HostFn 3))).
  vm_compute. reflexivity.
Defined.

(** ** Teardown by a packet *)

Lemma closeConn_dangling c cb s :
  heap s !! c = None → closeConn (Some c) cb s = (Raise TypeError, s).
Proof. intros Ho. unfold closeConn, deref, bind, gets. simpl. by rewrite Ho. Qed.

Lemma step_teardown c o p s :
  tickQueue s = [] → heap s !! c = Some o → listeners o = true →
  p = Disconnect ∨ p = Error →
  step s (Packet c p) = closed c o None s.
Proof.
  intros Hq Ho Hl Hp.
  assert (E : task (Packet c p) s = (Ok tt, closed c o None s)).
  { cbn [task]. rewrite (deliver_attached c o) by done.
    destruct Hp as [-> | ->]; cbn [handler]; by apply closeConn_eq. }
  unfold step, exec. rewrite turn_task, E; [done|done|]. rewrite E. cbn [snd].
  destruct (closed_fields c o None s) as (_ & _ & _ & _ & -> & _).
  by rewrite Hq.
Qed.

Lemma deadline_other c c' o' h' s :
  timers_ok s → c ≠ c' → heap s !! c' = Some o' → timer o' = Some h' →
  deadline c (set_timers (delete h') s) = deadline c s.
Proof.
  intros Hok Hne Ho' Ht'. unfold deadline. simpl.
  destruct (heap s !! c) as [o|] eqn:Ho; [|done].
  destruct (timer o) as [h|] eqn:Ht; [|done].
  rewrite lookup_delete_ne; [done|]. intros ->.
  apply Hne. by apply (timers_inj s Hok c c' o o' h).
Qed.

(** X3. Two open sessions have the same client id and the registry entry
    belongs to the newer one. When the older one disconnects (or fails),
    [closeConn] deletes the entry all the same: the newer session stays
    open, with its listeners and its timer, and is no longer registered,
    so that [close] will not tear it down. *)
Theorem teardown_unregisters_namesake (s : state) (c_old c_new : nat)
    (o_old o_new : client) (X : string) (p : packet) :
  reachable s →
  heap s !! c_old = Some o_old → listeners o_old = true →
  id o_old = Some X → X ≠ EmptyString →
  heap s !! c_new = Some o_new → c_new ≠ c_old →
  obj_get X (clients s) = Some c_new →
  p = Disconnect ∨ p = Error →
  let s' := step s (Packet c_old p) in
  obj_get X (clients s') = None ∧
  (∀ Y, Y ≠ X → obj_get Y (clients s') = obj_get Y (clients s)) ∧
  heap s' !! c_new = Some o_new ∧
  deadline c_new s' = deadline c_new s ∧
  disconnections c_new s' = disconnections c_new s.
Proof.
  intros Hs Hold Hl Hid HX Hnew Hne Hget Hp s'. subst s'.
  destruct (reachable_inv s Hs) as (Hq & _ & Hok).
  rewrite (step_teardown c_old o_old) by done.
  destruct (closed_fields c_old o_old None s) as (Fh & Ft & Fc & Fe & _).
  assert (Htr : truthy (id o_old) = true).
  { rewrite Hid. simpl. destruct (String.eqb_spec X EmptyString); [done|done]. }
  rewrite Htr, Hid in Fc. change (default EmptyString (Some X)) with X in Fc.
  rewrite Htr in Ft.
  split_and!.
  - rewrite Fc. apply obj_get_delete_eq.
  - intros Y HY. rewrite Fc. apply obj_get_delete_ne. congruence.
  - rewrite Fh. by rewrite !list_lookup_alter_ne.
  - unfold deadline. rewrite Fh, Ft, !list_lookup_alter_ne, Hnew by done.
    destruct (timer o_new) as [h|] eqn:Hh; [|done].
    destruct (timer o_old) as [h'|] eqn:Hh'; [|done].
    rewrite lookup_delete_ne; [done|]. intros ->.
    apply Hne. by apply (timers_inj s Hok c_new c_old o_new o_old h).
  - rewrite (disconnections_snoc c_new c_old s (closed c_old o_old None)) by done.
    rewrite decide_False by done. lia.
Qed.

Lemma teardown_unregisters_namesake_witness :
  let s := run init [Accept; Packet 0 (Connect "c1" 2); Accept;
                     Packet 1 (Connect "c1" 3)] in
  let s' := step s (Packet 0 Disconnect) in
  obj_get "c1" (clients s') = None ∧
  (∀ Y, Y ≠ "c1"%string → obj_get Y (clients s') = obj_get Y (clients s)) ∧
  heap s' !! 1 = Some (Client (Some "c1"%string) (Some 3%Z) (Some 1) false true) ∧
  deadline 1 s' = deadline 1 s ∧
  disconnections 1 s' = disconnections 1 s.
Proof.
  intros s.
  apply (teardown_unregisters_namesake s 0 1
           (Client (Some "c1"%string) (Some 2%Z) (Some 0) false true)
           (Client (Some "c1"%string) (Some 3%Z) (Some 1) false true)
           "c1" Disconnect).
  - apply reachable_run.
  - vm_compute. reflexivity.
  - reflexivity.
  - reflexivity.
  - discriminate.
  - vm_compute. reflexivity.
  - lia.
  - vm_compute. reflexivity.
  - by left.
Defined.

(** ** After the teardown *)

Lemma elem_of_obj_delete k0 kv (l : list (string * nat)) :
  kv ∈ obj_delete k0 l → kv ∈ l.
Proof.
  induction l as [|[k v] l IH]; simpl; [done|].
  destruct (decide (k = k0)).
  - intros H. apply list_elem_of_further. auto.
  - intros [->|H]%elem_of_cons; [apply list_elem_of_here|].
    apply list_elem_of_further. auto.
Qed.

Lemma not_elem_of_obj_delete k v (l : list (string * nat)) :
  (k, v) ∉ obj_delete k l.
Proof.
  induction l as [|[k' v'] l IH]; simpl; [apply not_elem_of_nil|].
  destruct (decide (k' = k)); [done|].
  apply not_elem_of_cons. split; [congruence|done].
Qed.

Lemma elem_of_obj_set k0 v0 k v (l : list (string * nat)) :
  (k, v) ∈ obj_set k0 v0 l → v ≠ v0 → (k, v) ∈ l.
Proof.
  intros Hin Hne. induction l as [|[k' v'] l IH]; simpl in Hin.
  - apply list_elem_of_singleton in Hin. congruence.
  - destruct (decide (k' = k0)).
    + apply elem_of_cons in Hin as [?|Hin]; [congruence|].
      by apply list_elem_of_further.
    + apply elem_of_cons in Hin as [->|Hin]; [apply list_elem_of_here|].
      apply list_elem_of_further. auto.
Qed.

Lemma disconnections_other c e s g :
  emitted (g s) = emitted s ++ [e] → e ≠ ClientDisconnected c →
  disconnections c (g s) = disconnections c s.
Proof.
  intros E He. unfold disconnections. rewrite E, filter_app, length_app.
  rewrite filter_cons, filter_nil, decide_False by done. simpl. lia.
Qed.

Section settled.
Context (c : nat) (o : client) (N : nat).

(** What a state change must respect to keep [c] settled. *)
Lemma settled_step s s' :
  settled c o N s →
  heap s' !! c = heap s !! c →
  (∀ h d, timers s' !! h = Some (c, d) → timers s !! h = Some (c, d)) →
  (∀ k, (k, c) ∈ clients s' → (k, c) ∈ clients s) →
  disconnections c s' = disconnections c s →
  settled c o N s'.
Proof.
  intros (((o' & Ho' & Hl) & Ht & Hc) & Ho & Hn) Eh Et Ec En.
  unfold settled, retired. split_and!; try congruence.
  - exists o'. by rewrite Eh.
  - intros h d Hh. by apply (Ht h d), Et.
  - intros k Hk. by apply (Hc k), Ec.
Qed.

Lemma settled_closed c' o' cb s :
  c' ≠ c → settled c o N s → settled c o N (closed c' o' cb s).
Proof.
  intros Hne Hs.
  destruct (closed_fields c' o' cb s) as (Fh & Ft & Fc & Fe & _).
  apply (settled_step s); [done|..].
  - rewrite Fh. by rewrite !list_lookup_alter_ne.
  - intros h d. rewrite Ft. destruct (truthy (id o')), (timer o'); try done.
    by intros [_ ?]%lookup_delete_Some.
  - intros k. rewrite Fc. destruct (truthy (id o')); [|done].
    apply elem_of_obj_delete.
  - rewrite (disconnections_snoc c c' s (closed c' o' cb)) by done.
    rewrite decide_False by done. lia.
Qed.

Lemma settled_rearmed c' o' s :
  c' ≠ c → settled c o N s → settled c o N (rearmed c' o' s).
Proof.
  intros Hne Hs.
  destruct (rearmed_fields c' o' s) as (Fc & _ & _ & Fe & _).
  apply (settled_step s); [done|..].
  - rewrite heap_of_rearmed. by rewrite list_lookup_alter_ne.
  - intros h d. rewrite timers_of_rearmed.
    intros [[_ ?]|[_ Hh]]%lookup_insert_Some; [congruence|].
    destruct (timer o'); [|done]. by apply lookup_delete_Some in Hh as [_ ?].
  - intros k. by rewrite Fc.
  - unfold disconnections. by rewrite Fe.
Qed.

Lemma settled_connected c' o' X K s :
  c' ≠ c → settled c o N s → settled c o N (connected c' X K o' s).
Proof.
  intros Hne Hs. unfold connected.
  set (s0 := set_clients (obj_set X c')
               (set_heap (alter (with_keepalive (Some K)) c')
                  (set_heap (alter (with_id (Some X)) c') s))).
  assert (H0 : settled c o N s0).
  { apply (settled_step s); [done|..].
    - simpl. by rewrite !list_lookup_alter_ne.
    - done.
    - intros k Hk. simpl in Hk. by apply (elem_of_obj_set X c').
    - done. }
  pose proof (settled_rearmed c' (with_keepalive (Some K) (with_id (Some X) o'))
                s0 Hne H0) as H1.
  apply (settled_step _ _ H1); try done.
  match goal with |- disconnections c (set_emitted ?f ?s1) = _ =>
    by rewrite (disconnections_other c (ClientConnected c') s1 (set_emitted f))
  end.
Qed.

Lemma preserves_settled_run_final fn : preserves (settled c o N) (run_final fn).
Proof. destruct fn; pres_all. Qed.

Lemma preserves_settled_invoke cb : preserves (settled c o N) (invoke cb).
Proof.
  destruct cb; [pres_all|]. unfold invoke, task_done. pres; try by apply preserves_modify.
  apply preserves_settled_run_final.
Qed.

Lemma preserves_settled_closeConn ref cb :
  ref ≠ Some c → preserves (settled c o N) (closeConn ref cb).
Proof.
  intros Hne s Hs. destruct ref as [c'|]; [|done].
  destruct (heap s !! c') as [o'|] eqn:Ho'.
  - rewrite (closeConn_eq c' o') by done. apply settled_closed; [congruence|done].
  - by rewrite closeConn_dangling.
Qed.

Lemma preserves_settled_parallel {T} (run_task : T → callback → M unit) tasks fn :
  (∀ t cb, preserves (settled c o N) (run_task t cb)) →
  preserves (settled c o N) (parallel run_task tasks fn).
Proof.
  intros Ht. unfold parallel. destruct tasks.
  - apply preserves_settled_run_final.
  - pres; [by apply preserves_modify|apply Ht].
Qed.

Lemma preserves_settled_handler c' o' p s :
  c' ≠ c → heap s !! c' = Some o' →
  settled c o N s → settled c o N (handler c' p s).2.
Proof.
  intros Hne Ho' Hs. destruct p; cbn [handler].
  - rewrite (on_connect_eq c' _ _ o') by done. by apply settled_connected.
  - rewrite (on_pingreq_eq c' o') by done. cbn [snd].
    by apply (settled_rearmed c' o' s Hne) in Hs.
  - apply preserves_settled_parallel; [|done].
    intros t cb. unfold bus_async. pres; by apply preserves_modify.
  - refine ((_ : preserves (settled c o N) _) s Hs). unfold on_publish, bus_publish, emit.
    pres; apply preserves_modify; [done|].
    intros s1 H1. apply (settled_step s1); try done.
    by apply (disconnections_other c (Published ptopic payload c') s1
                (set_emitted (λ l, l ++ [Published ptopic payload c']))).
  - apply preserves_settled_parallel; [|done].
    intros t cb. unfold bus_async. pres; by apply preserves_modify.
  - apply preserves_settled_closeConn; [congruence|done].
  - apply preserves_settled_closeConn; [congruence|done].
Qed.

Lemma preserves_settled_task l : preserves (settled c o N) (task l).
Proof.
  intros s Hs. destruct l as [|c' p|op|c' t payload|ms| |cb]; cbn [task].
  - unfold bind, gets, serve, modify. cbn [fst snd].
    destruct (listening s); [|done]. cbn [snd].
    apply (settled_step s); try done. simpl.
    destruct Hs as (_ & Ho & _). by rewrite (lookup_app_l_Some _ _ _ _ Ho).
  - unfold deliver, bind, gets. cbn [fst snd].
    destruct (heap s !! c') as [o'|] eqn:Ho'; [|done].
    destruct (listeners o') eqn:Hl'; [|done].
    apply (preserves_settled_handler c' o'); [|done..].
    intros ->. destruct Hs as (((o0 & Ho0 & Hl0) & _) & _). congruence.
  - refine ((_ : preserves (settled c o N) _) s Hs). unfold bus_done.
    pres; [by apply preserves_modify|apply preserves_settled_invoke].
  - refine ((_ : preserves (settled c o N) _) s Hs). pres_all.
  - refine ((_ : preserves (settled c o N) _) s Hs). unfold elapse.
    pres; [by apply preserves_modify|].
    intros s1 H1. unfold fire, bind, gets, modify. cbn [fst snd].
    destruct (timers s1 !! x) as [[c' d]|] eqn:Hx; [|done]. cbn [fst snd].
    apply preserves_settled_closeConn.
    + intros [= ->]. destruct H1 as ((_ & Ht & _) & _). by apply (Ht x d).
    + apply (settled_step s1); try done.
      intros h d'. simpl. by intros [_ ?]%lookup_delete_Some.
  - refine ((_ : preserves (settled c o N) _) s Hs). pres_all.
  - refine ((_ : preserves (settled c o N) _) s Hs). unfold close.
    pres. apply preserves_settled_parallel.
    intros k cb'. intros s1 H1. unfold close_task, bind, gets. cbn [fst snd].
    apply preserves_settled_closeConn; [|done].
    intros Hk. apply obj_get_elem_of in Hk.
    destruct H1 as ((_ & _ & Hc) & _). by apply (Hc k).
Qed.

Lemma settled_run ls s : settled c o N s → settled c o N (run s ls).
Proof.
  revert s. induction ls as [|l ls IH]; intros s Hs; [done|].
  simpl. apply IH. unfold step, exec.
  apply preserves_turn; [apply preserves_settled_task| |done].
  apply preserves_drain; [apply preserves_settled_invoke|]. by intros g s1 H1.
Qed.
End settled.

Lemma tickQueue_run s l ls : tickQueue (run (step s l) ls) = [].
Proof.
  revert s l. induction ls as [|l' ls IH]; intros s l; simpl.
  - apply turn_empties.
  - apply IH.
Qed.

(** X4. A session with a non-empty id that is filed in the registry only
    under that id is torn down by its disconnect packet (or a protocol
    error) once and for all: whatever the event loop runs afterwards, its
    disconnection stays notified exactly once, its object stays as the
    teardown left it, and packets that still arrive on the connection
    change nothing. *)
Theorem teardown_is_final (s : state) (c : nat) (o : client) (p : packet)
    (ls : list label) (q : packet) :
  reachable s → heap s !! c = Some o → listeners o = true →
  truthy (id o) = true →
  (∀ k, (k, c) ∈ clients s → id o = Some k) →
  p = Disconnect ∨ p = Error →
  let s' := run (step s (Packet c p)) ls in
  disconnections c s' = S (disconnections c s) ∧
  heap s' !! c = Some (with_listeners false (with_stream_ended true o)) ∧
  retired c s' ∧
  step s' (Packet c q) = s'.
Proof.
  intros Hs Ho Hl Hid Hfiled Hp s'.
  destruct (reachable_inv s Hs) as (Hq & _ & Hok).
  assert (H1 : settled c (with_listeners false (with_stream_ended true o))
                 (S (disconnections c s)) (step s (Packet c p))).
  { rewrite (step_teardown c o) by done.
    destruct (closed_fields c o None s) as (Fh & Ft & Fc & Fe & _).
    assert (Eh : heap (closed c o None s) !! c =
                 Some (with_listeners false (with_stream_ended true o))).
    { rewrite Fh. by rewrite !list_lookup_alter_eq, Ho. }
    rewrite Hid in Ft, Fc.
    split_and!; [split_and!|done|].
    - by eexists.
    - intros h d. rewrite Ft. intros Hh.
      assert (Hh' : timers s !! h = Some (c, d)).
      { destruct (timer o); [|done]. by apply lookup_delete_Some in Hh as [_ ?]. }
      destruct (timers_held s Hok _ _ _ Hh') as (o' & Ho' & Ht').
      assert (o' = o) as -> by congruence. rewrite Ht' in Hh.
      by rewrite lookup_delete_eq in Hh.
    - intros k. rewrite Fc. intros Hk.
      pose proof (elem_of_obj_delete _ _ _ Hk) as Hk'.
      pose proof (Hfiled k Hk') as Hidk. rewrite Hidk in Hk.
      by apply not_elem_of_obj_delete in Hk.
    - rewrite (disconnections_snoc c c s (closed c o None)) by done.
      rewrite decide_True by done. lia. }
  pose proof (settled_run c _ _ ls _ H1) as (Hret & Hh & Hn). fold s' in Hret, Hh, Hn.
  split_and!; try done.
  destruct Hret as ((o' & Ho' & Hl') & _).
  assert (Hq' : tickQueue s' = []) by apply tickQueue_run.
  unfold step, exec. rewrite turn_task; cbn [task];
    rewrite ?(deliver_detached c o' q s'); done.
Qed.

Lemma teardown_is_final_witness :
  let s' := run (step one_session (Packet 0 Disconnect))
              [Elapse 5000; HostClose (Some 4); ListenerClosed] in
  disconnections 0 s' = S (disconnections 0 one_session) ∧
  heap s' !! 0 =
    Some (with_listeners false
            (with_stream_ended true
               (Client (Some "c1"%string) (Some 2%Z) (Some 0) false true))) ∧
  retired 0 s' ∧
  step s' (Packet 0 Pingreq) = s'.
Proof.
  apply (teardown_is_final one_session 0
           (Client (Some "c1"%string) (Some 2%Z) (Some 0) false true)
           Disconnect [Elapse 5000; HostClose (Some 4); ListenerClosed] Pingreq).
  - apply reachable_run.
  - vm_compute. reflexivity.
  - reflexivity.
  - reflexivity.
  - intros k Hk. vm_compute in Hk.
    apply list_elem_of_singleton in Hk as [= ->]. reflexivity.
  - by left.
Defined.

(** ** Packets out of turn *)

(** X5. A client that sends pingreq before connect gets its ping response,
    and its liveness timer is armed from a keepalive that is not there:
    the delay is NaN, which the timer takes for 1 ms. Unless a packet
    rearms it first, the connection is torn down as soon as 1 ms has
    passed. *)
Theorem ping_before_connect_expires (s : state) (c : nat) (o : client) (ms : N) :
  reachable s → heap s !! c = Some o → listeners o = true →
  keepalive o = None → (1 ≤ ms)%N →
  let s1 := step s (Packet c Pingreq) in
  let s2 := step s1 (Elapse ms) in
  sent s1 = sent s ++ [(c, Pingresp)] ∧
  deadline c s1 = Some (now s + 1)%Z ∧
  disconnections c s2 = S (disconnections c s1) ∧
  stream_ended <$> heap s2 !! c = Some true ∧
  listeners <$> heap s2 !! c = Some false.
Proof.
  intros Hs Ho Hl HK Hms s1 s2.
  assert (Hs1 : reachable s1) by by constructor.
  pose proof (reachable_tickQueue s Hs) as Hq.
  assert (E1 : s1 = set_sent (λ l, l ++ [(c, Pingresp)]) (rearmed c o s)).
  { subst s1. by apply step_pingreq. }
  assert (Hd : deadline c s1 = Some (now s + 1)%Z).
  { rewrite E1.
    change (deadline c (set_sent ?f (rearmed c o s)))
      with (deadline c (rearmed c o s)).
    rewrite deadline_rearmed by done. by rewrite HK. }
  assert (Hnow : now s1 = now s).
  { rewrite E1. cbn [now set_sent].
    by destruct (rearmed_fields c o s) as (_&_&_&_&_&_&_&_& -> &_). }
  split_and!.
  - rewrite E1. cbn [sent set_sent].
    by destruct (rearmed_fields c o s) as (_&_& -> &_).
  - done.
  - destruct (deadline_Some c _ s1 (reachable_timers_ok _ Hs1) Hd)
      as (o1 & h & Ho1 & _ & _).
    destruct (elapse_deadline s1 c o1 _ ms (reachable_timers_ok _ Hs1)
                (reachable_tickQueue _ Hs1) Ho1 Hd) as [Hdue _].
    destruct Hdue as (_ & Hn & _); [lia|]. done.
  - destruct (deadline_Some c _ s1 (reachable_timers_ok _ Hs1) Hd)
      as (o1 & h & Ho1 & _ & _).
    destruct (elapse_deadline s1 c o1 _ ms (reachable_timers_ok _ Hs1)
                (reachable_tickQueue _ Hs1) Ho1 Hd) as [Hdue _].
    destruct Hdue as (Hh & _ & _); [lia|]. fold s2 in Hh. by rewrite Hh.
  - destruct (deadline_Some c _ s1 (reachable_timers_ok _ Hs1) Hd)
      as (o1 & h & Ho1 & _ & _).
    destruct (elapse_deadline s1 c o1 _ ms (reachable_timers_ok _ Hs1)
                (reachable_tickQueue _ Hs1) Ho1 Hd) as [Hdue _].
    destruct Hdue as (Hh & _ & _); [lia|]. fold s2 in Hh. by rewrite Hh.
Qed.

Lemma ping_before_connect_expires_witness :
  let s1 := step one_pending (Packet 0 Pingreq) in
  let s2 := step s1 (Elapse 1) in
  sent s1 = sent one_pending ++ [(0, Pingresp)] ∧
  deadline 0 s1 = Some (now one_pending + 1)%Z ∧
  disconnections 0 s2 = S (disconnections 0 s1) ∧
  stream_ended <$> heap s2 !! 0 = Some true ∧
  listeners <$> heap s2 !! 0 = Some false.
Proof.
  apply (ping_before_connect_expires one_pending 0 fresh_client 1).
  - apply reachable_run.
  - vm_compute. reflexivity.
  - reflexivity.
  - reflexivity.
  - lia.
Defined.

Lemma obj_delete_set_fresh k v (l : list (string * nat)) :
  obj_get k l = None → obj_delete k (obj_set k v l) = l.
Proof.
  induction l as [|[k' v'] l IH]; simpl.
  - intros _. by rewrite decide_True.
  - destruct (decide (k' = k)); [done|]. intros Hl. simpl.
    rewrite decide_False by done. by rewrite IH.
Qed.

Lemma nextTimer_free s : timers_ok s → timers s !! nextTimer s = None.
Proof.
  intros Hok. destruct (timers s !! nextTimer s) as [[c d]|] eqn:E; [|done].
  destruct (timers_held s Hok _ _ _ E) as (o & Ho & Ht).
  pose proof (timers_fresh s Hok _ _ _ Ho Ht). lia.
Qed.

(** X6. On a connection that holds no timer yet, a connect under a free,
    non-empty client id followed by a disconnect leaves the registry and
    the timer table exactly as they were: the entry made is the entry
    deleted and the timer armed is the timer cleared. The client got its
    connack, and the connection and the disconnection were notified once
    each. *)
Theorem connect_disconnect_restores (s : state) (c : nat) (o : client)
    (X : string) (K : Z) :
  reachable s → heap s !! c = Some o → listeners o = true →
  timer o = None → X ≠ EmptyString → obj_get X (clients s) = None →
  let s2 := run s [Packet c (Connect X K); Packet c Disconnect] in
  clients s2 = clients s ∧ timers s2 = timers s ∧
  sent s2 = sent s ++ [(c, Connack 0)] ∧
  emitted s2 = emitted s ++ [ClientConnected c; ClientDisconnected c] ∧
  heap s2 !! c =
    Some (Client (Some X) (Some K) (Some (nextTimer s)) true false).
Proof.
  intros Hs Ho Hl Ht HX Hfree s2. subst s2. cbn [run foldl].
  destruct (reachable_inv s Hs) as (Hq & _ & Hok).
  set (s1 := step s (Packet c (Connect X K))).
  assert (Hs1 : reachable s1) by by constructor.
  assert (E1 : s1 = connected c X K o s) by by apply step_connect.
  set (o1 := Client (Some X) (Some K) (Some (nextTimer s)) (stream_ended o) true).
  assert (Ho1 : heap s1 !! c = Some o1).
  { rewrite E1. unfold connected. cbn [heap set_emitted set_sent].
    rewrite heap_of_rearmed. cbn [heap set_clients set_heap nextTimer].
    rewrite !list_lookup_alter_eq, Ho. cbn.
    unfold o1, with_timer, with_keepalive, with_id. cbn. by rewrite Hl. }
  rewrite (step_teardown c o1 Disconnect s1 (reachable_tickQueue _ Hs1) Ho1 eq_refl)
    by by left.
  destruct (closed_fields c o1 None s1) as (Fh & Ft & Fc & Fe & _ & _ & _ & Fs & _).
  assert (Htr : truthy (id o1) = true).
  { cbn. by destruct (String.eqb_spec X EmptyString). }
  rewrite Htr in Ft, Fc. cbn [id timer o1 default from_option] in Ft, Fc.
  assert (Ec1 : clients s1 = obj_set X c (clients s)).
  { rewrite E1. unfold connected. cbn [clients set_emitted set_sent].
    by destruct (rearmed_fields c (with_keepalive (Some K) (with_id (Some X) o))
                   (set_clients (obj_set X c)
                      (set_heap (alter (with_keepalive (Some K)) c)
                         (set_heap (alter (with_id (Some X)) c) s))))
      as (-> & _). }
  assert (Et1 : timers s1 =
                <[nextTimer s := (c, (now s + timeout_after (keepalive_ms (Some K)))%Z)]>
                  (timers s)).
  { rewrite E1. unfold connected. cbn [timers set_emitted set_sent].
    rewrite timers_of_rearmed. cbn. by rewrite Ht. }
  assert (Es1 : sent s1 = sent s ++ [(c, Connack 0)] ∧
                emitted s1 = emitted s ++ [ClientConnected c]).
  { rewrite E1. unfold connected. cbn [sent emitted set_emitted set_sent].
    by destruct (rearmed_fields c (with_keepalive (Some K) (with_id (Some X) o))
                   (set_clients (obj_set X c)
                      (set_heap (alter (with_keepalive (Some K)) c)
                         (set_heap (alter (with_id (Some X)) c) s))))
      as (_ & _ & -> & -> & _). }
  destruct Es1 as [Es1 Ee1]. split_and!.
  - rewrite Fc, Ec1. by apply obj_delete_set_fresh.
  - rewrite Ft, Et1. rewrite delete_insert_eq. apply delete_id.
    by apply nextTimer_free.
  - by rewrite Fs, Es1.
  - rewrite Fe, Ee1. by rewrite <- app_assoc.
  - rewrite Fh. by rewrite !list_lookup_alter_eq, Ho1.
Qed.

Lemma connect_disconnect_restores_witness :
  let s2 := run one_pending [Packet 0 (Connect "c1" 2); Packet 0 Disconnect] in
  clients s2 = clients one_pending ∧ timers s2 = timers one_pending ∧
  sent s2 = sent one_pending ++ [(0, Connack 0)] ∧
  emitted s2 = emitted one_pending ++ [ClientConnected 0; ClientDisconnected 0] ∧
  heap s2 !! 0 =
    Some (Client (Some "c1"%string) (Some 2%Z) (Some (nextTimer one_pending)) true false).
Proof.
  apply (connect_disconnect_restores one_pending 0 fresh_client "c1" 2).
  - apply reachable_run.
  - vm_compute. reflexivity.
  - reflexivity.
  - reflexivity.
  - discriminate.
  - vm_compute. reflexivity.
Defined.

(** ** The bus *)

Lemma busLog_invoke cb L : preserves (λ s, busLog s = L) (invoke cb).
Proof. destruct cb; pres_all. Qed.

(** X7. The broker calls the bus only while it handles a subscribe, a
    publish or an unsubscribe packet. No teardown (disconnect, error,
    timer expiry, [close]) deregisters anything: the forwarding callbacks
    of a session stay with the bus, and a message the bus delivers to one
    of them is written to its client whether or not that client has been
    torn down. *)
Theorem only_packets_call_the_bus (s : state) (l : label) :
  reachable s → calls_bus l = false →
  busLog (step s l) = busLog s ∧
  ∀ c o t m, heap (step s l) !! c = Some o →
    sent (step (step s l) (BusDeliver c t m)) =
      sent (step s l) ++ [(c, Forward t m)].
Proof.
  intros Hs Hl. split.
  - unfold step, exec.
    apply (preserves_turn (λ s', busLog s' = busLog s) l); [| |done].
    + destruct l as [|c p|op|c t payload|ms| |cb]; try destruct p; try done;
        pres_all.
    + apply preserves_drain; [intros cb; apply busLog_invoke|].
      by intros g s1 H1.
  - intros c o t m. set (s1 := step s l). intros Ho.
    assert (Hq : tickQueue s1 = []) by apply turn_empties.
    assert (E : task (BusDeliver c t m) s1 =
                (Ok tt, set_sent (λ l, l ++ [(c, Forward t m)]) s1)).
    { cbn [task]. unfold bus_deliver, bind, gets. cbn [fst snd]. by rewrite Ho. }
    unfold step at 1, exec. rewrite turn_task, E; [done|done|]. by rewrite E.
Qed.

Lemma only_packets_call_the_bus_witness :
  busLog (step one_session (Packet 0 Disconnect)) = busLog one_session ∧
  ∀ c o t m, heap (step one_session (Packet 0 Disconnect)) !! c = Some o →
    sent (step (step one_session (Packet 0 Disconnect)) (BusDeliver c t m)) =
      sent (step one_session (Packet 0 Disconnect)) ++ [(c, Forward t m)].
Proof.
  apply (only_packets_call_the_bus one_session (Packet 0 Disconnect)).
  - apply reachable_run.
  - reflexivity.
Defined.

Lemma parallel_bus_async {A} (f : A → bus_call) x r fn s :
  parallel (λ x cb, bus_async (f x) cb) (x :: r) fn s =
    (Ok tt,
     bus_started (f <$> x :: r) (ParallelCb (length (joins s)))
       (set_joins (λ l, l ++ [Join (length (x :: r)) 0 fn]) s)).
Proof.
  unfold parallel. unfold bind at 1, gets at 1. unfold bind at 1, modify at 1.
  by rewrite (forEach_bus_async f).
Qed.

Lemma started_facts bs cb jn s :
  let s1 := bus_started bs cb (set_joins (λ l, l ++ [jn]) s) in
  tickQueue s1 = tickQueue s ∧ joins s1 !! length (joins s) = Some jn ∧
  sent s1 = sent s ∧ heap s1 = heap s ∧ clients s1 = clients s ∧
  timers s1 = timers s ∧ emitted s1 = emitted s ∧
  busLog s1 = busLog s ++ bs ∧
  ∀ op, nextOp s ≤ op < nextOp s + length bs → busPending s1 !! op = Some cb.
Proof.
  intros s1.
  destruct (bus_started_fields bs cb (set_joins (λ l, l ++ [jn]) s))
    as (Fc & Fh & _ & _ & Ft & _ & _ & Fq & Fj & Fs & Fe & _ & _ & Fl).
  fold s1 in Fc, Fh, Ft, Fq, Fj, Fs, Fe, Fl. split_and!; try done.
  - rewrite Fj. simpl. by rewrite lookup_app_r, Nat.sub_diag.
  - intros op Hop. subst s1. rewrite bus_started_pending. simpl.
    by rewrite decide_True.
Qed.

(** One bus completion that belongs to join [j], whose final callback
    writes the reply [r] to client [c]. *)
Lemma step_bus_done_reply s op j n k fn c r :
  (∀ s, run_final fn s = (Ok tt, set_sent (λ l, l ++ [(c, r)]) s)) →
  tickQueue s = [] →
  busPending s !! op = Some (ParallelCb j) →
  joins s !! j = Some (Join n k fn) →
  step s (BusDone op) =
    (if decide (S k = n) then set_sent (λ l, l ++ [(c, r)]) else λ s, s)
      (set_joins (<[j := Join n (S k) fn]>) (set_busPending (delete op) s)).
Proof.
  intros Hfn Hq Hop Hj. unfold step, exec.
  assert (E : task (BusDone op) s =
    (Ok tt, (if decide (S k = n) then set_sent (λ l, l ++ [(c, r)])
             else λ s, s)
              (set_joins (<[j := Join n (S k) fn]>)
                 (set_busPending (delete op) s)))).
  { cbn [task]. unfold bus_done, bind, gets, modify. simpl. rewrite Hop. simpl.
    unfold task_done, bind, gets, modify. simpl. rewrite Hj. simpl.
    destruct (decide (S k = n)); [|done]. by rewrite Hfn. }
  rewrite turn_task, E; [done|done|]. rewrite E.
  by destruct (decide (S k = n)).
Qed.

Lemma completions_reply s1 j n fn c r order k :
  (∀ s, run_final fn s = (Ok tt, set_sent (λ l, l ++ [(c, r)]) s)) →
  0 < n → NoDup order → length order = n → k ≤ n →
  tickQueue s1 = [] →
  joins s1 !! j = Some (Join n 0 fn) →
  (∀ op, op ∈ order → busPending s1 !! op = Some (ParallelCb j)) →
  let s' := run s1 (BusDone <$> take k order) in
  tickQueue s' = [] ∧
  joins s' !! j = Some (Join n k fn) ∧
  (∀ op, op ∈ drop k order → busPending s' !! op = Some (ParallelCb j)) ∧
  sent s' = sent s1 ++ (if decide (k = n) then [(c, r)] else []).
Proof.
  intros Hfn Hn Hnd Hlen Hk Hq Hj Hops. induction k as [|k IH]; simpl.
  - rewrite decide_False by lia. rewrite app_nil_r. by split_and!.
  - destruct IH as (IHq & IHj & IHops & IHsent); [lia|].
    destruct (lookup_lt_is_Some_2 order k) as [op Hop]; [lia|].
    rewrite (take_S_r _ _ _ Hop), fmap_app, run_app.
    set (sk := run s1 (BusDone <$> take k order)) in *. simpl.
    assert (Hpend : busPending sk !! op = Some (ParallelCb j)).
    { apply IHops. rewrite (drop_S _ _ _ Hop). apply list_elem_of_here. }
    rewrite (step_bus_done_reply sk op j n k fn c r) by done.
    rewrite decide_False in IHsent by lia. rewrite app_nil_r in IHsent.
    split_and!.
    + by destruct (decide (S k = n)).
    + destruct (decide (S k = n)); simpl;
        apply list_lookup_insert_eq; by eapply lookup_lt_Some.
    + intros op' Hop'.
      assert (op' ≠ op).
      { intros ->. rewrite <- (take_drop (S k) order) in Hnd.
        apply NoDup_app in Hnd as (_ & Hdis & _). apply (Hdis op); [|done].
        rewrite (take_S_r _ _ _ Hop). set_solver. }
      assert (busPending sk !! op' = Some (ParallelCb j)).
      { apply IHops. rewrite (drop_S _ _ _ Hop). by apply list_elem_of_further. }
      destruct (decide (S k = n)); simpl; by rewrite lookup_delete_ne.
    + destruct (decide (S k = n)); simpl; by rewrite IHsent, ?app_nil_r.
Qed.

(** X8. An unsubscribe packet with [n] topics and request id [R] makes
    the broker call the bus to deregister the client's forwarding callback
    once per topic, in the order of the packet and without looking at what
    the client had subscribed to; whatever the order in which the bus
    completes these calls, nothing is written before the last one
    completes, and with it exactly one acknowledgment carrying [R]. With
    no topic the acknowledgment is written at once. *)
Theorem unsubscribe_acknowledged (s : state) (c : nat) (o : client) (R : Z)
    (ts : list string) (order : list nat) (k : nat) :
  reachable s → heap s !! c = Some o → listeners o = true →
  order ≡ₚ seq (nextOp s) (length ts) → k ≤ length ts →
  let s1 := step s (Packet c (Unsubscribe R ts)) in
  busLog s1 = busLog s ++ ((λ t, BusUnsubscribe t c) <$> ts) ∧
  sent (run s1 (BusDone <$> take k order)) =
    sent s ++ (if decide (k = length ts) then [(c, Unsuback R)] else []).
Proof.
  intros Hs Ho Hl Hperm Hk s1.
  pose proof (reachable_tickQueue s Hs) as Hq.
  assert (Es1 : s1 = (on_unsubscribe c R ts s).2).
  { subst s1. by apply (step_packet c o). }
  destruct ts as [|t r].
  - apply Permutation_nil_r in Hperm as ->. assert (k = 0) as -> by (simpl in Hk; lia).
    rewrite Es1. simpl. by rewrite app_nil_r.
  - unfold on_unsubscribe in Es1.
    rewrite (parallel_bus_async (λ t, BusUnsubscribe t c)) in Es1. cbn [snd] in Es1.
    match type of Es1 with _ = bus_started ?bs ?cb (set_joins (λ l, l ++ [?jn]) _) =>
      pose proof (started_facts bs cb jn s) as F end.
    cbv zeta in F. rewrite <- Es1 in F.
    destruct F as (Fq & Fj & Fs & _ & _ & _ & _ & Fl & Fp).
    split; [done|].
    destruct (completions_reply s1 (length (joins s)) (length (t :: r))
                (FinUnsuback c R) c (Unsuback R) order k)
      as (_ & _ & _ & E); try done.
    + simpl. lia.
    + rewrite Hperm. apply NoDup_seq.
    + by rewrite Hperm, length_seq.
    + by rewrite Fq.
    + intros op Hop. rewrite Hperm in Hop. apply elem_of_seq in Hop.
      apply Fp. rewrite length_fmap. lia.
    + by rewrite E, Fs.
Qed.

Lemma unsubscribe_acknowledged_witness :
  let s1 := step one_session (Packet 0 (Unsubscribe 9 ["a/b"; "never/subscribed"]%string)) in
  busLog s1 =
    busLog one_session ++ [BusUnsubscribe "a/b" 0; BusUnsubscribe "never/subscribed" 0] ∧
  sent (run s1 (BusDone <$> take 2 [1; 0])) =
    sent one_session ++ [(0, Unsuback 9)].
Proof.
  apply (unsubscribe_acknowledged one_session 0
           (Client (Some "c1"%string) (Some 2%Z) (Some 0) false true) 9
           ["a/b"; "never/subscribed"]%string [1; 0] 2).
  - apply reachable_run.
  - vm_compute. reflexivity.
  - reflexivity.
  - vm_compute. apply perm_swap.
  - simpl. lia.
Defined.

(** X9. A teardown does not cancel an acknowledgment that is waiting for
    the bus: when a client subscribes and disconnects before the bus has
    completed the registrations, the registrations stay pending, and when
    the last of them completes the subscribe acknowledgment is written to
    the client that is gone. *)
Theorem acknowledgment_survives_teardown (s : state) (c : nat) (o : client)
    (R : Z) (subs : list subscription) (order : list nat) :
  reachable s → heap s !! c = Some o → listeners o = true →
  subs ≠ [] → order ≡ₚ seq (nextOp s) (length subs) →
  let s2 := run s [Packet c (Subscribe R subs); Packet c Disconnect] in
  listeners <$> heap s2 !! c = Some false ∧
  sent s2 = sent s ∧
  sent (run s2 (BusDone <$> order)) =
    sent s ++ [(c, Suback R (replicate (length subs) 0%Z))].
Proof.
  intros Hs Ho Hl Hne Hperm s2. subst s2. cbn [run foldl].
  destruct subs as [|x r]; [done|].
  pose proof (reachable_tickQueue s Hs) as Hq.
  set (s1 := step s (Packet c (Subscribe R (x :: r)))).
  assert (Hs1 : reachable s1) by by constructor.
  assert (Es1 : s1 = (on_subscribe c R (x :: r) s).2).
  { subst s1. by apply (step_packet c o). }
  unfold on_subscribe in Es1.
  rewrite (parallel_bus_async (λ x, BusSubscribe (topic x) c)) in Es1.
  cbn [snd] in Es1.
  match type of Es1 with _ = bus_started ?bs ?cb (set_joins (λ l, l ++ [?jn]) _) =>
    pose proof (started_facts bs cb jn s) as F end.
  cbv zeta in F. rewrite <- Es1 in F.
  destruct F as (Fq & Fj & Fs & Fh & _ & _ & _ & Fl & Fp).
  assert (Ho1 : heap s1 !! c = Some o) by by rewrite Fh.
  rewrite (step_teardown c o Disconnect s1 (reachable_tickQueue _ Hs1) Ho1 Hl)
    by by left.
  destruct (closed_fields c o None s1)
    as (Gh & _ & _ & _ & Gq & _ & _ & Gs & _ & Gj & _ & _ & Gp & _).
  split_and!.
  - rewrite Gh. by rewrite !list_lookup_alter_eq, Ho1.
  - by rewrite Gs, Fs.
  - destruct (completions_reply (closed c o None s1) (length (joins s))
                (length (x :: r))
                (FinSuback c R (map (λ _, 0%Z) (x :: r))) c
                (Suback R (map (λ _, 0%Z) (x :: r))) order (length (x :: r)))
      as (_ & _ & _ & E); try done.
    + simpl. lia.
    + rewrite Hperm. apply NoDup_seq.
    + by rewrite Hperm, length_seq.
    + rewrite Gq, Fq, Hq. done.
    + by rewrite Gj.
    + intros op Hop. rewrite Hperm in Hop. apply elem_of_seq in Hop.
      rewrite Gp. apply Fp. rewrite length_fmap. lia.
    + rewrite take_ge in E by (rewrite Hperm, length_seq; lia).
      rewrite E, Gs, Fs. rewrite decide_True by done.
      by rewrite map_zero_replicate.
Qed.

Lemma acknowledgment_survives_teardown_witness :
  let s2 := run one_session
              [Packet 0 (Subscribe 7 [Sub "a/b" 0; Sub "c/d" 1]); Packet 0 Disconnect] in
  listeners <$> heap s2 !! 0 = Some false ∧
  sent s2 = sent one_session ∧
  sent (run s2 (BusDone <$> [0; 1])) =
    sent one_session ++ [(0, Suback 7 (replicate 2 0%Z))].
Proof.
  apply (acknowledgment_survives_teardown one_session 0
           (Client (Some "c1"%string) (Some 2%Z) (Some 0) false true) 7
           [Sub "a/b" 0; Sub "c/d" 1] [0; 1]).
  - apply reachable_run.
  - vm_compute. reflexivity.
  - reflexivity.
  - discriminate.
  - vm_compute. reflexivity.
Defined.

(** ** Packets before connect *)

(** A join over asynchronous bus calls whose final callback writes the
    reply [r] to client [c]: what starting it changes, and when the reply
    is written. *)
Lemma bus_join_reply {A} (f : A → bus_call) (l : list A) fn c r s :
  (∀ s, run_final fn s = (Ok tt, set_sent (λ l, l ++ [(c, r)]) s)) →
  tickQueue s = [] →
  let m := parallel (λ x cb, bus_async (f x) cb) l fn in
  (m s).1 = Ok tt ∧ tickQueue (m s).2 = [] ∧
  clients (m s).2 = clients s ∧ heap (m s).2 = heap s ∧
  timers (m s).2 = timers s ∧ listening (m s).2 = listening s ∧
  called (m s).2 = called s ∧ emitted (m s).2 = emitted s ∧
  busLog (m s).2 = busLog s ++ (f <$> l) ∧
  ∀ order k, order ≡ₚ seq (nextOp s) (length l) → k ≤ length l →
    sent (run (m s).2 (BusDone <$> take k order)) =
      sent s ++ (if decide (k = length l) then [(c, r)] else []).
Proof.
  intros Hfn Hq m. subst m. destruct l as [|x l].
  - unfold parallel. rewrite Hfn. cbn [fst snd].
    split_and!; try done; [by rewrite app_nil_r|].
    intros order k Hperm Hk. apply Permutation_nil_r in Hperm as ->.
    by assert (k = 0) as -> by (simpl in Hk; lia).
  - rewrite (parallel_bus_async f). cbn [fst snd].
    set (jn := Join (length (x :: l)) 0 fn).
    pose proof (bus_started_fields (f <$> x :: l) (ParallelCb (length (joins s)))
                  (set_joins (λ l, l ++ [jn]) s)) as F.
    pose proof (started_facts (f <$> x :: l) (ParallelCb (length (joins s))) jn s)
      as G.
    cbv zeta in F, G.
    destruct F as (Fc & Fh & Fl & _ & Ft & _ & _ & Fq & _ & Fs & Fe & Fca & _ & Flog).
    destruct G as (_ & Fj & _ & _ & _ & _ & _ & _ & Fp).
    split_and!; try done; [by rewrite Fq|].
    intros order k Hperm Hk.
    match goal with |- sent (run ?s1 _) = _ =>
      destruct (completions_reply s1 (length (joins s)) (length (x :: l))
                  fn c r order k) as (_ & _ & _ & E) end; try done.
    + simpl. lia.
    + rewrite Hperm. apply NoDup_seq.
    + by rewrite Hperm, length_seq.
    + by rewrite Fq.
    + intros op Hop. rewrite Hperm in Hop. apply elem_of_seq in Hop.
      apply Fp. rewrite length_fmap. lia.
    + by rewrite E, Fs.
Qed.

(** The subscribe, publish and unsubscribe handlers look at nothing of
    the session: whatever state the client is in, while its handlers are
    attached the packet is processed. *)
Lemma handler_processed c o p s :
  reachable s → heap s !! c = Some o → listeners o = true →
  calls_bus (Packet c p) = true → processed c p s.
Proof.
  intros Hs Ho Hl Hp.
  pose proof (reachable_tickQueue s Hs) as Hq.
  assert (Hac : after_connect p = true) by (by destruct p).
  assert (Ht : task (Packet c p) s = handler c p s).
  { cbn [task]. by apply (deliver_attached c o). }
  assert (Hstep : step s (Packet c p) = (handler c p s).2)
    by (by apply (step_packet c o)).
  assert (Hturn : (handler c p s).1 = Ok tt →
                  turn (Packet c p) s = (Ok tt, step s (Packet c p))).
  { intros E. rewrite turn_task, Ht.
    - rewrite Hstep. rewrite (surjective_pairing (handler c p s)) at 1.
      by rewrite E.
    - done.
    - rewrite Ht. by apply (tickQueue_handler c p Hac []). }
  unfold processed. cbv zeta.
  destruct p as [| |R subs|t m|R ts| |]; try done; cbn [handler] in *.
  - destruct (bus_join_reply (λ x, BusSubscribe (topic x) c) subs
                (FinSuback c R (map (λ _, 0%Z) subs)) c
                (Suback R (map (λ _, 0%Z) subs)) s)
      as (E1 & _ & Fc & Fh & Ft & Fl & Fca & Fe & Flog & Hack); [done|done|].
    change (parallel _ subs _) with (on_subscribe c R subs) in *.
    rewrite Hstep in Hturn |- *. rewrite map_zero_replicate in Hack.
    by split_and!; auto.
  - rewrite Hstep in Hturn |- *. by split_and!; auto.
  - destruct (bus_join_reply (λ t, BusUnsubscribe t c) ts
                (FinUnsuback c R) c (Unsuback R) s)
      as (E1 & _ & Fc & Fh & Ft & Fl & Fca & Fe & Flog & Hack); [done|done|].
    change (parallel _ ts _) with (on_unsubscribe c R ts) in *.
    rewrite Hstep in Hturn |- *. by split_and!; auto.
Qed.

(** A pingreq on a connection whose handlers are attached: the response
    is written and the timer is armed from whatever [client.keepalive]
    holds. *)
Lemma pingreq_rearms c o s :
  reachable s → heap s !! c = Some o → listeners o = true →
  let s1 := step s (Packet c Pingreq) in
  turn (Packet c Pingreq) s = (Ok tt, s1) ∧
  sent s1 = sent s ++ [(c, Pingresp)] ∧ now s1 = now s ∧
  deadline c s1 = Some (now s + timeout_after (keepalive_ms (keepalive o)))%Z.
Proof.
  intros Hs Ho Hl s1.
  pose proof (reachable_tickQueue s Hs) as Hq.
  assert (E1 : s1 = set_sent (λ l, l ++ [(c, Pingresp)]) (rearmed c o s)).
  { subst s1. by apply step_pingreq. }
  assert (Ht : task (Packet c Pingreq) s = on_pingreq c s).
  { cbn [task]. by apply (deliver_attached c o). }
  destruct (rearmed_fields c o s) as (_ & Fq & Fs & _ & _ & _ & _ & _ & Fn & _).
  split_and!.
  - rewrite turn_task, Ht, (on_pingreq_eq c o), <- ?E1; try done.
    rewrite Ht, (on_pingreq_eq c o) by done.
    cbn [snd tickQueue set_sent]. by rewrite Fq.
  - rewrite E1. cbn [sent set_sent]. by rewrite Fs.
  - rewrite E1. cbn [now set_sent]. by rewrite Fn.
  - rewrite E1.
    change (deadline c (set_sent ?f (rearmed c o s)))
      with (deadline c (rearmed c o s)).
    by apply deadline_rearmed.
Qed.

(** The session the connect handler leaves. *)
Lemma connected_session c X K o s :
  heap s !! c = Some o →
  ∃ o1, heap (connected c X K o s) !! c = Some o1 ∧
        listeners o1 = listeners o ∧ id o1 = Some X ∧ keepalive o1 = Some K ∧
        now (connected c X K o s) = now s.
Proof.
  intros Ho. unfold connected. cbn [heap now set_emitted set_sent].
  rewrite heap_of_rearmed.
  match goal with |- context [rearmed ?c ?o ?s] =>
    destruct (rearmed_fields c o s) as (_&_&_&_&_&_&_&_& -> &_) end.
  cbn [heap now set_clients set_heap].
  rewrite !list_lookup_alter_eq, Ho. eexists. split; [reflexivity|]. done.
Qed.

(** C9, amended. [serve] attaches every handler when the connection is
    accepted, and none of them looks at whether the client has connected.
    A client that has sent no connect (no id, no keepalive, not in the
    registry) and sends subscribe, publish or unsubscribe has the packet
    processed exactly as the same connection would once connected: the
    same bus calls, the same notification, the same acknowledgment after
    the last bus completion, nothing else touched. Its pingreq is answered
    too, but not as for a connected client: the timer is armed from a
    keepalive that is not there, for 1 ms instead of 1250 ms per second of
    keepalive, and the first lapse of time tears the pending connection
    down while the connected one stays. *)
Theorem pending_not_gated (s : state) (c : nat) (o : client) (X : string)
    (K : Z) :
  reachable s → heap s !! c = Some o → listeners o = true →
  id o = None → keepalive o = None →
  (∀ k, obj_get k (clients s) ≠ Some c) → (1 ≤ K ≤ 65535)%Z →
  let sc := step s (Packet c (Connect X K)) in
  let s1 := step s (Packet c Pingreq) in
  let s2 := step sc (Packet c Pingreq) in
  (listening s = true →
   heap (step s Accept) !! length (heap s) = Some fresh_client) ∧
  (∀ p, calls_bus (Packet c p) = true → processed c p s ∧ processed c p sc) ∧
  turn (Packet c Pingreq) s = (Ok tt, s1) ∧
  sent s1 = sent s ++ [(c, Pingresp)] ∧
  sent s2 = sent sc ++ [(c, Pingresp)] ∧
  deadline c s1 = Some (now s + 1)%Z ∧
  deadline c s2 = Some (now s + K * 1250)%Z ∧
  ∀ ms, (1 ≤ ms)%N → (Z.of_N ms < K * 1250)%Z →
    disconnections c (step s1 (Elapse ms)) = S (disconnections c s1) ∧
    listeners <$> heap (step s1 (Elapse ms)) !! c = Some false ∧
    disconnections c (step s2 (Elapse ms)) = disconnections c s2 ∧
    listeners <$> heap (step s2 (Elapse ms)) !! c = Some true.
Proof.
  intros Hs Ho Hl _ HK _ HKr sc s1 s2.
  pose proof (reachable_tickQueue s Hs) as Hq.
  assert (Hsc : reachable sc) by by constructor.
  assert (Hs1 : reachable s1) by by constructor.
  assert (Hs2 : reachable s2) by by constructor.
  assert (Ec : sc = connected c X K o s) by by apply step_connect.
  destruct (connected_session c X K o s Ho) as (o1 & Ho1 & Hl1 & _ & HK1 & Hn1).
  rewrite <- Ec in Ho1, Hn1. rewrite Hl in Hl1.
  destruct (pingreq_rearms c o s Hs Ho Hl) as (Et & Es & Hnow1 & Hd1).
  destruct (pingreq_rearms c o1 sc Hsc Ho1 Hl1) as (_ & Es2 & Hnow2 & Hd2).
  fold s1 in Et, Es, Hnow1, Hd1. fold s2 in Es2, Hnow2, Hd2.
  rewrite HK in Hd1. rewrite HK1, timeout_after_keepalive, Hn1 in Hd2 by done.
  change (timeout_after (keepalive_ms None)) with 1%Z in Hd1.
  split_and!; try done.
  - intros Hup. unfold step, exec, turn. cbn [task]. unfold bind, gets.
    rewrite Hup. unfold serve, modify. rewrite drain_nil by done.
    simpl. by rewrite lookup_app_r, Nat.sub_diag.
  - intros p Hp. split; [by apply (handler_processed c o)|].
    by apply (handler_processed c o1).
  - intros ms Hms Hlt.
    destruct (deadline_Some c _ s1 (reachable_timers_ok _ Hs1) Hd1)
      as (o1' & h1 & Ho1' & _ & _).
    destruct (deadline_Some c _ s2 (reachable_timers_ok _ Hs2) Hd2)
      as (o2' & h2 & Ho2' & _ & _).
    destruct (elapse_deadline s1 c o1' _ ms (reachable_timers_ok _ Hs1)
                (reachable_tickQueue _ Hs1) Ho1' Hd1) as [Hdue _].
    destruct (elapse_deadline s2 c o2' _ ms (reachable_timers_ok _ Hs2)
                (reachable_tickQueue _ Hs2) Ho2' Hd2) as [_ Hlate].
    destruct Hdue as (Hh1 & Hn1' & _); [lia|].
    destruct Hlate as (Hh2 & Hn2' & _); [lia|].
    assert (Hl2' : listeners o2' = true).
    { assert (E2 : s2 = set_sent (λ l, l ++ [(c, Pingresp)]) (rearmed c o1 sc)).
      { subst s2. apply step_pingreq; [by apply reachable_tickQueue|done..]. }
      rewrite E2 in Ho2'.
      cbn [heap set_sent] in Ho2'. rewrite heap_of_rearmed in Ho2'.
      rewrite list_lookup_alter_eq, Ho1 in Ho2'. injection Ho2' as <-.
      by rewrite <- Hl1. }
    split_and!; [done| |done|].
    + by rewrite Hh1.
    + by rewrite Hh2, <- Hl2'.
Qed.

Lemma pending_not_gated_witness :
  let sc := step one_pending (Packet 0 (Connect "c1" 2)) in
  let s1 := step one_pending (Packet 0 Pingreq) in
  let s2 := step sc (Packet 0 Pingreq) in
  (listening one_pending = true →
   heap (step one_pending Accept) !! length (heap one_pending) =
     Some fresh_client) ∧
  (∀ p, calls_bus (Packet 0 p) = true →
        processed 0 p one_pending ∧ processed 0 p sc) ∧
  turn (Packet 0 Pingreq) one_pending = (Ok tt, s1) ∧
  sent s1 = sent one_pending ++ [(0, Pingresp)] ∧
  sent s2 = sent sc ++ [(0, Pingresp)] ∧
  deadline 0 s1 = Some (now one_pending + 1)%Z ∧
  deadline 0 s2 = Some (now one_pending + 2 * 1250)%Z ∧
  ∀ ms, (1 ≤ ms)%N → (Z.of_N ms < 2 * 1250)%Z →
    disconnections 0 (step s1 (Elapse ms)) = S (disconnections 0 s1) ∧
    listeners <$> heap (step s1 (Elapse ms)) !! 0 = Some false ∧
    disconnections 0 (step s2 (Elapse ms)) = disconnections 0 s2 ∧
    listeners <$> heap (step s2 (Elapse ms)) !! 0 = Some true.
Proof.
  apply (pending_not_gated one_pending 0 fresh_client "c1" 2).
  - apply reachable_run.
  - vm_compute. reflexivity.
  - reflexivity.
  - reflexivity.
  - reflexivity.
  - vm_compute. intros k H. discriminate H.
  - lia.
Defined.

(** The counterexample to C9 as stated. The same connection, once before
    and once after its connect packet (keepalive 2), sends pingreq: the
    pending one has its timer armed for 1 ms and is torn down when 1 ms
    has passed; the connected one has it armed for 2500 ms and stays. *)
Lemma pending_pingreq_differs :
  one_session = step one_pending (Packet 0 (Connect "c1" 2)) ∧
  deadline 0 (step one_pending (Packet 0 Pingreq)) = Some 1%Z ∧
  deadline 0 (step one_session (Packet 0 Pingreq)) = Some 2500%Z ∧
  emitted (run one_pending [Packet 0 Pingreq; Elapse 1]) =
    [ClientDisconnected 0] ∧
  listeners <$> heap (run one_pending [Packet 0 Pingreq; Elapse 1]) !! 0 =
    Some false ∧
  emitted (run one_session [Packet 0 Pingreq; Elapse 1]) =
    [ClientConnected 0] ∧
  listeners <$> heap (run one_session [Packet 0 Pingreq; Elapse 1]) !! 0 =
    Some true.
Proof. split; [reflexivity|]. vm_compute. by split_and!. Qed.

(** ** What the registry holds *)

Lemma elem_of_obj_set_inv k0 v0 k v (l : list (string * nat)) :
  (k, v) ∈ obj_set k0 v0 l → (k = k0 ∧ v = v0) ∨ (k, v) ∈ l.
Proof.
  induction l as [|[k' v'] l IH]; simpl.
  - intros [= -> ->]%list_elem_of_singleton. by left.
  - destruct (decide (k' = k0)) as [->|Hne].
    + intros [[= -> ->]|Hin]%elem_of_cons; [by left|].
      right. by apply list_elem_of_further.
    + intros [[= -> ->]|Hin]%elem_of_cons.
      * right. apply list_elem_of_here.
      * destruct (IH Hin) as [?|?]; [by left|].
        right. by apply list_elem_of_further.
Qed.

Section all_entries.
Context (φ : string → client → Prop).
Context (φ_timer : ∀ k o h, φ k o → φ k (with_timer (Some h) o)).
Context (φ_ended : ∀ k o, φ k o → φ k (with_stream_ended true o)).
Context (φ_detached : ∀ k o, φ k o → φ k (with_listeners false o)).

Lemma all_entries_alter f c s :
  (∀ k o, φ k o → φ k (f o)) →
  all_entries φ s → all_entries φ (set_heap (alter f c) s).
Proof using Type*.
  intros Hf Hs k c' Hin. destruct (Hs k c' Hin) as (o & Ho & Hφ).
  destruct (decide (c = c')) as [->|Hne].
  - exists (f o). simpl. rewrite list_lookup_alter_eq, Ho. split; [done|auto].
  - exists o. simpl. by rewrite list_lookup_alter_ne.
Qed.

Lemma all_entries_delete k0 s :
  all_entries φ s → all_entries φ (set_clients (obj_delete k0) s).
Proof using Type*. intros Hs k c Hin. apply (Hs k c). by apply (elem_of_obj_delete k0). Qed.

Lemma all_entries_serve s :
  all_entries φ s → all_entries φ (set_heap (λ l, l ++ [fresh_client]) s).
Proof using Type*.
  intros Hs k c Hin. destruct (Hs k c Hin) as (o & Ho & Hφ).
  exists o. split; [|done]. simpl. by apply lookup_app_l_Some.
Qed.

Lemma all_entries_rearmed c o s :
  all_entries φ s → all_entries φ (rearmed c o s).
Proof using Type*.
  intros Hs k c' Hin.
  destruct (rearmed_fields c o s) as (Fc & _). rewrite Fc in Hin.
  destruct (Hs k c' Hin) as (o' & Ho' & Hφ). rewrite heap_of_rearmed.
  destruct (decide (c = c')) as [->|Hne].
  - eexists. rewrite list_lookup_alter_eq, Ho'. split; [done|]. by apply φ_timer.
  - exists o'. by rewrite list_lookup_alter_ne.
Qed.

Lemma preserves_entries_run_final fn : preserves (all_entries φ) (run_final fn).
Proof using Type*. destruct fn; pres_all. Qed.

Lemma preserves_entries_invoke cb : preserves (all_entries φ) (invoke cb).
Proof using Type*.
  destruct cb; [pres_all|]. unfold invoke, task_done.
  pres; try by apply preserves_modify. apply preserves_entries_run_final.
Qed.

Lemma preserves_entries_closeConn ref cb :
  preserves (all_entries φ) (closeConn ref cb).
Proof using Type*.
  pres_all.
  - by apply all_entries_delete.
  - apply all_entries_alter; [|done]. auto.
  - apply all_entries_alter; [|done]. auto.
Qed.

(** Every turn keeps the entries as they should be, if the connect handler
    does. *)
Lemma all_entries_step s l :
  (∀ c o X K, l = Packet c (Connect X K) →
     heap s !! c = Some o → listeners o = true →
     all_entries φ (connected c X K o s)) →
  all_entries φ s → all_entries φ (step s l).
Proof using Type*.
  intros Hconnect Hs.
  assert (H1 : all_entries φ (task l s).2).
  { destruct l as [|c p|op|c t payload|ms| |cb]; cbn [task].
    - refine ((_ : preserves (all_entries φ) _) s Hs). pres_all.
      by apply all_entries_serve.
    - unfold deliver, bind, gets. cbn [fst snd].
      destruct (heap s !! c) as [o|] eqn:Ho; [|done].
      destruct (listeners o) eqn:Hl; [|done].
      destruct p; cbn [handler].
      + rewrite (on_connect_eq c _ _ o) by done. by eapply Hconnect.
      + rewrite (on_pingreq_eq c o) by done. cbn [snd].
        by apply (all_entries_rearmed c o s) in Hs.
      + refine ((_ : preserves (all_entries φ) _) s Hs). pres_all.
      + refine ((_ : preserves (all_entries φ) _) s Hs). pres_all.
      + refine ((_ : preserves (all_entries φ) _) s Hs). pres_all.
      + by apply preserves_entries_closeConn.
      + by apply preserves_entries_closeConn.
    - refine ((_ : preserves (all_entries φ) _) s Hs). unfold bus_done.
      pres; [by apply preserves_modify|apply preserves_entries_invoke].
    - refine ((_ : preserves (all_entries φ) _) s Hs). pres_all.
    - refine ((_ : preserves (all_entries φ) _) s Hs). unfold elapse, fire.
      pres; try apply preserves_entries_closeConn; by apply preserves_modify.
    - refine ((_ : preserves (all_entries φ) _) s Hs). pres_all.
    - refine ((_ : preserves (all_entries φ) _) s Hs).
      unfold close, close_task, parallel.
      pres; try apply preserves_entries_closeConn;
        try apply preserves_entries_run_final; by apply preserves_modify. }
  unfold step, exec, turn.
  destruct (task l s) as [[[]|e] s1]; cbn [fst snd] in *;
    (apply preserves_drain;
       [apply preserves_entries_invoke|by intros g s2 H2|done]).
Qed.
End all_entries.

(** X10. As long as no connection changes its client id, every registry
    entry is filed under the id of its session: a turn that is not a
    connect packet giving a connection another id than the one it has
    keeps the registry consistent. *)
Theorem consistent_kept (s : state) (l : label) :
  consistent s → ¬ renames l s → consistent (step s l).
Proof.
  intros Hs Hl.
  apply (all_entries_step (λ k o, id o = Some k)); try done.
  intros c o X K -> Ho Hlis k c' Hin. unfold connected in *.
  cbn [clients heap set_emitted set_sent] in *.
  match goal with |- context [rearmed ?c ?o ?s] =>
    destruct (rearmed_fields c o s) as (Fc & _) end.
  rewrite Fc in Hin. rewrite heap_of_rearmed. cbn [clients heap set_clients set_heap] in *.
  destruct (decide (c' = c)) as [->|Hne].
  - eexists. rewrite !list_lookup_alter_eq, Ho. split; [done|]. cbn.
    apply elem_of_obj_set_inv in Hin as [[-> _]|Hin]; [done|].
    destruct (Hs k c Hin) as (o' & Ho' & Hid). assert (o' = o) as -> by congruence.
    destruct (decide (k = X)) as [->|Hk]; [done|].
    destruct Hl. exists o, k. by split_and!.
  - apply elem_of_obj_set_inv in Hin as [[_ ->]|Hin]; [done|].
    destruct (Hs k c' Hin) as (o' & Ho' & Hid).
    exists o'. by rewrite !list_lookup_alter_ne.
Qed.

Lemma consistent_kept_witness :
  consistent (step one_session (Packet 0 (Connect "c1" 9))).
Proof.
  apply (consistent_kept one_session (Packet 0 (Connect "c1" 9))).
  - intros k c Hin. vm_compute in Hin.
    apply list_elem_of_singleton in Hin as [= -> ->].
    eexists. split; [vm_compute; reflexivity|reflexivity].
  - intros (o & k & Ho & _ & Hid & Hk). vm_compute in Ho.
    injection Ho as <-. simpl in Hid. congruence.
Defined.

(** X11. In every reachable state the registry holds only sessions that
    have been through the connect handler: every entry points to an
    existing client object with an id, a keepalive and a timer handle, and
    a connection that has not sent connect is filed nowhere. *)
Theorem registered_sessions_connected (s : state) :
  reachable s →
  all_entries (λ _ o, has_connected o) s ∧
  ∀ c o, heap s !! c = Some o → id o = None → ∀ k, (k, c) ∉ clients s.
Proof.
  intros Hs.
  assert (H : all_entries (λ _ o, has_connected o) s).
  { induction Hs as [|s l _ IH]; [by intros k c Hin%elem_of_nil|].
    apply all_entries_step; try done.
    - intros _ o h (? & ? & ?). by split_and!.
    - intros c o X K -> Ho Hlis k c' Hin. unfold connected in *.
      cbn [clients heap set_emitted set_sent] in *.
      match goal with |- context [rearmed ?c ?o ?s] =>
        destruct (rearmed_fields c o s) as (Fc & _) end.
      rewrite Fc in Hin. rewrite heap_of_rearmed.
      cbn [clients heap set_clients set_heap] in *.
      destruct (decide (c' = c)) as [->|Hne].
      + eexists. rewrite !list_lookup_alter_eq, Ho. split; [done|].
        by split_and!.
      + apply elem_of_obj_set_inv in Hin as [[_ ->]|Hin]; [done|].
        destruct (IH k c' Hin) as (o' & Ho' & Hc).
        exists o'. by rewrite !list_lookup_alter_ne. }
  split; [done|]. intros c o Ho Hid k Hin.
  destruct (H k c Hin) as (o' & Ho' & Hi & _).
  assert (o' = o) as -> by congruence. rewrite Hid in Hi. by destruct Hi.
Qed.

Lemma registered_sessions_connected_witness :
  all_entries (λ _ o, has_connected o) one_session_one_pending ∧
  ∀ c o, heap one_session_one_pending !! c = Some o → id o = None →
         ∀ k, (k, c) ∉ clients one_session_one_pending.
Proof.
  apply (registered_sessions_connected one_session_one_pending).
  apply reachable_run.
Defined.

(** ** What [close] leaves of the registry *)

Lemma obj_delete_fresh k (l : list (string * nat)) :
  k ∉ obj_keys l → obj_delete k l = l.
Proof.
  unfold obj_keys. induction l as [|[k' v'] l IH]; [done|].
  rewrite fmap_cons. cbn [fst obj_delete]. intros [Hk Hl]%not_elem_of_cons.
  rewrite decide_False by done. by rewrite IH.
Qed.

Lemma truthy_Some k : k ≠ EmptyString → truthy (Some k) = true.
Proof. intros Hk. simpl. by destruct (String.eqb_spec k EmptyString). Qed.

(** A retired client is settled with the object it has. *)
Lemma retired_settled c s :
  retired c s → ∃ o, settled c o (disconnections c s) s.
Proof. intros Hr. destruct Hr as ((o & Ho & Hl) & Ht & Hc). exists o. by repeat split; eauto. Qed.

Lemma preserves_retired_invoke c cb : preserves (retired c) (invoke cb).
Proof.
  intros s Hr. destruct (retired_settled c s Hr) as (o & Hs).
  by destruct (preserves_settled_invoke c o _ cb s Hs) as (? & _).
Qed.

Lemma preserves_retired_run_final c fn : preserves (retired c) (run_final fn).
Proof.
  intros s Hr. destruct (retired_settled c s Hr) as (o & Hs).
  by destruct (preserves_settled_run_final c o _ fn s Hs) as (? & _).
Qed.

Lemma preserves_retired_close_task c k cb : preserves (retired c) (close_task k cb).
Proof.
  intros s Hr. destruct (retired_settled c s Hr) as (o & Hs).
  unfold close_task, bind, gets. cbn [fst snd].
  assert (Hne : obj_get k (clients s) ≠ Some c).
  { intros Hget%obj_get_elem_of. by destruct Hr as (_ & _ & Hc); destruct (Hc k). }
  by destruct (preserves_settled_closeConn c o _ _ (Some cb) Hne s Hs) as (? & _).
Qed.

(** The teardown of a session that is filed under its own id, and only
    there, retires it. *)
Lemma closed_retired c o cb s :
  timers_ok s → heap s !! c = Some o → truthy (id o) = true →
  (∀ k, (k, c) ∈ clients s → id o = Some k) →
  retired c (closed c o cb s).
Proof.
  intros Hok Ho Hid Hfiled.
  destruct (closed_fields c o cb s) as (Fh & Ft & Fc & _).
  rewrite Hid in Ft, Fc. split_and!.
  - eexists. rewrite Fh. by rewrite !list_lookup_alter_eq, Ho.
  - intros h d. rewrite Ft. intros Hh.
    assert (Hh' : timers s !! h = Some (c, d)).
    { destruct (timer o); [|done]. by apply lookup_delete_Some in Hh as [_ ?]. }
    destruct (timers_held s Hok _ _ _ Hh') as (o' & Ho' & Ht').
    assert (o' = o) as -> by congruence. rewrite Ht' in Hh.
    by rewrite lookup_delete_eq in Hh.
  - intros k. rewrite Fc. intros Hk.
    pose proof (elem_of_obj_delete _ _ _ Hk) as Hk'.
    pose proof (Hfiled k Hk') as Hidk. rewrite Hidk in Hk.
    by apply not_elem_of_obj_delete in Hk.
Qed.

(** The tasks of [close], run on the whole registry: each deletes its own
    entry and retires its session. *)
Lemma forEach_close_task_retires (l : list (string * nat)) cb s :
  NoDup l.*1 → clients s = l → timers_ok s →
  (∀ k c, (k, c) ∈ l →
     k ≠ EmptyString ∧ ∃ o, heap s !! c = Some o ∧ id o = Some k) →
  let s' := (forEach (λ k, close_task k cb) l.*1 s).2 in
  clients s' = [] ∧ ∀ k c, (k, c) ∈ l → retired c s'.
Proof.
  revert s. induction l as [|[k c] l IH]; intros s Hnd Hc Hok Hl s'; subst s'.
  - split; [done|]. by intros k c Hin%elem_of_nil.
  - rewrite !fmap_cons in *. cbn [fst snd] in *.
    apply NoDup_cons in Hnd as [Hk Hnd].
    destruct (Hl k c) as (Hne & o & Ho & Hid); [apply list_elem_of_here|].
    assert (Hget : obj_get k (clients s) = Some c).
    { rewrite Hc. simpl. by rewrite decide_True. }
    assert (Htr : truthy (id o) = true) by (rewrite Hid; by apply truthy_Some).
    set (s1 := closed c o (Some cb) s).
    assert (E : forEach (λ k, close_task k cb) (k :: l.*1) s =
                forEach (λ k, close_task k cb) l.*1 s1).
    { cbn [forEach]. unfold bind at 1, close_task at 1, bind at 1, gets at 1.
      cbn [fst snd]. by rewrite Hget, (closeConn_eq c o). }
    rewrite E. clear E.
    destruct (closed_fields c o (Some cb) s) as (Fh & _ & Fc & _).
    fold s1 in Fh, Fc. rewrite Htr, Hid in Fc.
    change (default EmptyString (Some k)) with k in Fc.
    assert (Hc1 : clients s1 = l).
    { rewrite Fc, Hc. cbn [obj_delete]. rewrite decide_True by done.
      by apply obj_delete_fresh. }
    assert (Hok1 : timers_ok s1).
    { pose proof (preserves_timers_closeConn (Some c) (Some cb) s Hok) as H.
      by rewrite (closeConn_eq c o) in H. }
    assert (Hr1 : retired c s1).
    { apply closed_retired; try done. intros k' Hin. rewrite Hc in Hin.
      destruct (Hl k' c Hin) as (_ & o' & Ho' & Hid'). congruence. }
    destruct (IH s1 Hnd Hc1 Hok1) as (Hc' & Hr').
    { intros k' c' Hin.
      destruct (Hl k' c') as (Hne' & o' & Ho' & Hid');
        [by apply list_elem_of_further|].
      assert (k ≠ k').
      { intros ->. apply Hk. apply list_elem_of_fmap. by exists (k', c'). }
      assert (c ≠ c') by (intros ->; congruence).
      split; [done|]. exists o'. split; [|done]. rewrite Fh.
      by rewrite !list_lookup_alter_ne. }
    split; [exact Hc'|]. intros k' c' [[= -> ->]|Hin]%elem_of_cons.
    + refine ((_ : preserves (retired c) _) s1 Hr1).
      apply preserves_forEach. intros k''. apply preserves_retired_close_task.
    + by apply (Hr' k').
Qed.

(** X12. [close] on a consistent registry in which no session is filed
    under the empty string or under [__proto__]: when its turn is over the
    registry is empty and every session that was registered is retired;
    its listeners are detached, no timer is left that would tear it down
    again, and it is filed nowhere. The order in which [Object.keys] lists
    the sessions plays no part. *)
Theorem close_retires_all (s : state) (callback : option nat) :
  reachable s → consistent s →
  (∀ c, (EmptyString, c) ∉ clients s) → proto_free s →
  let s' := step s (HostClose callback) in
  clients s' = [] ∧ ∀ k c, (k, c) ∈ clients s → retired c s'.
Proof.
  intros Hs Hcons Hkeys _ s'. destruct (reachable_inv s Hs) as (_ & Hnd & Hok).
  set (P := λ s1, clients s1 = [] ∧ ∀ k c, (k, c) ∈ clients s → retired c s1).
  assert (Hfin : ∀ fn, preserves P (run_final fn)).
  { intros fn s1 [H1 H2]. split.
    - refine ((_ : preserves (λ s, clients s = []) _) s1 H1). destruct fn; pres_all.
    - intros k c Hin. by apply preserves_retired_run_final, (H2 k). }
  assert (Hinv : ∀ cb, preserves P (invoke cb)).
  { intros cb s1 [H1 H2]. split.
    - refine ((_ : preserves (λ s, clients s = []) _) s1 H1).
      destruct cb; [pres_all|]. unfold invoke, task_done.
      pres; try by apply preserves_modify. destruct (fin _); pres_all.
    - intros k c Hin. by apply preserves_retired_invoke, (H2 k). }
  assert (H1 : P (close callback s).2).
  { rewrite close_eq. unfold parallel.
    destruct (obj_keys (clients s)) as [|k0 ks] eqn:Ek.
    - apply Hfin. split.
      + unfold obj_keys in Ek. by apply fmap_nil_inv in Ek.
      + unfold obj_keys in Ek. apply fmap_nil_inv in Ek. rewrite Ek.
        by intros k c Hin%elem_of_nil.
    - unfold bind at 1, gets at 1. unfold bind at 1, modify at 1. cbn [fst snd].
      rewrite <- Ek.
      set (s0 := set_joins _ s).
      apply (forEach_close_task_retires (clients s) _ s0); try done.
      + by apply (timers_ok_frame s).
      + intros k c Hin. split; [|by apply Hcons].
        intros ->. by apply (Hkeys c). }
  subst s'. unfold step, exec, turn. cbn [task].
  destruct (close callback s) as [[[]|e] s1]; cbn [fst snd] in *;
    (apply preserves_drain; [exact Hinv| |exact H1]);
    intros g s2 [H2 H3]; (split; [done|]); intros k c Hin;
    destruct (H3 k c Hin) as (Ha & Hb & Hc); by split_and!.
Qed.

Lemma close_retires_all_witness :
  let s' := step one_session (HostClose None) in
  clients s' = [] ∧ ∀ k c, (k, c) ∈ clients one_session → retired c s'.
Proof.
  apply (close_retires_all one_session None).
  - apply reachable_run.
  - intros k c Hin. vm_compute in Hin.
    apply list_elem_of_singleton in Hin as [= -> ->].
    eexists. split; [vm_compute; reflexivity|reflexivity].
  - intros c Hin. vm_compute in Hin.
    by apply list_elem_of_singleton in Hin.
  - intros c Hin. vm_compute in Hin.
    by apply list_elem_of_singleton in Hin.
Defined.

(** ** [close] called twice *)





(** ** [close], from the call to the callback *)









(** ** Teardown of a session without a usable id *)

(** X14. [closeConn] clears the timer only inside [if (client.id)]. A
    session whose id is undefined (it pinged before it connected) or the
    empty string keeps its pending timer through its disconnect packet
    (or a protocol error), and its registry entry if it has one; when the
    timer is due, [closeConn] runs on the closed session again and its
    disconnection is notified a second time. *)
Theorem teardown_without_id_keeps_timer (s : state) (c : nat) (o : client)
    (d : Z) (p : packet) (ms : N) :
  reachable s → heap s !! c = Some o → listeners o = true →
  truthy (id o) = false → deadline c s = Some d →
  p = Disconnect ∨ p = Error → (d ≤ now s + Z.of_N ms)%Z →
  let s1 := step s (Packet c p) in
  let s2 := step s1 (Elapse ms) in
  clients s1 = clients s ∧ timers s1 = timers s ∧
  deadline c s1 = Some d ∧
  disconnections c s1 = S (disconnections c s) ∧
  disconnections c s2 = S (S (disconnections c s)).
Proof.
  intros Hs Ho Hl Hid Hd Hp Hms s1 s2.
  destruct (reachable_inv s Hs) as (Hq & _ & Hok).
  assert (Hs1 : reachable s1) by by constructor.
  destruct (reachable_inv s1 Hs1) as (Hq1 & _ & Hok1).
  assert (E1 : s1 = closed c o None s) by (by apply step_teardown).
  destruct (closed_fields c o None s)
    as (Fh & Ft & Fc & Fe & _ & _ & Fn & _).
  rewrite <- E1 in Fh, Ft, Fc, Fe, Fn. rewrite Hid in Ft, Fc.
  assert (Ho1 : heap s1 !! c = Some (with_listeners false (with_stream_ended true o))).
  { rewrite Fh. by rewrite !list_lookup_alter_eq, Ho. }
  assert (Hd1 : deadline c s1 = Some d).
  { unfold deadline in *. rewrite Ho1, Ft. by rewrite Ho in Hd. }
  assert (Hn1 : disconnections c s1 = S (disconnections c s)).
  { rewrite E1. rewrite (disconnections_snoc c c s (closed c o None)).
    - rewrite decide_True by done. lia.
    - by rewrite <- E1. }
  split_and!; try done.
  destruct (elapse_deadline s1 c _ d ms Hok1 Hq1 Ho1 Hd1) as [Hdue _].
  destruct Hdue as (_ & Hn & _); [lia|]. fold s2 in Hn. by rewrite Hn, Hn1.
Qed.

Lemma teardown_without_id_keeps_timer_witness :
  let s := run init [Accept; Packet 0 Pingreq] in
  let s1 := step s (Packet 0 Disconnect) in
  let s2 := step s1 (Elapse 1) in
  clients s1 = clients s ∧ timers s1 = timers s ∧
  deadline 0 s1 = Some 1%Z ∧
  disconnections 0 s1 = S (disconnections 0 s) ∧
  disconnections 0 s2 = S (S (disconnections 0 s)).
Proof.
  intros s.
  apply (teardown_without_id_keeps_timer s 0
           (Client None None (Some 0) false true) 1%Z Disconnect 1%N).
  - apply reachable_run.
  - vm_compute. reflexivity.
  - reflexivity.
  - reflexivity.
  - vm_compute. reflexivity.
  - by left.
  - vm_compute. discriminate.
Defined.
